(** * xeus-cpp: the input validator ([include/xeus-cpp/input_validator.hpp])

    A shallow embedding of [xpp::input_validator] and the properties of
    its two member functions, [validate] and [reset].

    The validator decides, from the token stream of a fragment of C++
    typed at a prompt, whether the fragment is complete, incomplete or
    invalid.  It keeps three fields across calls: the text collected so
    far ([input]), a stack of opening tokens ([parenStack]) and the last
    verdict ([lastResult]).

    The tokenizer is clang's preprocessor, which is not part of the
    repository.  A call of [validate] therefore receives, next to the
    text of the fragment, the tokens that the successive calls of
    [preprocessor.Lex] return for it. *)

From Stdlib Require Import ZArith List String Ascii Bool Lia Arith.
From Equations Require Import Equations.
From Equations.Prop Require Import Logic.
Import ListNotations.

Local Open Scope string_scope.
Local Open Scope list_scope.
Local Open Scope Z_scope.

(* ##################################################################### *)
(** * Part I: the model                                              *)
(* ##################################################################### *)

(* ===================================================================== *)
(** ** Token kinds ([clang::tok::TokenKind])                              *)
(* ===================================================================== *)

Module tok.

(** Modelled from the spec: the enumeration [clang::tok::TokenKind]
    belongs to clang (generated from [TokenKinds.def]) and is not under
    the sources of the repository.  The enumerators are listed in their
    order of declaration, up to the last punctuator the validator can
    tell apart; [other n] stands for the [n]-th enumerator after
    [hashat] (the remaining punctuators, the keywords and the
    annotations).  The validator relies on one fact only, which the
    spec states: every closing bracket is declared right after its
    opening bracket, so that its value is the opener's value plus one. *)
Inductive TokenKind : Type :=
  | unknown | eof | eod | code_completion | comment
  | identifier | raw_identifier | numeric_constant
  | char_constant | wide_char_constant | utf8_char_constant
  | utf16_char_constant | utf32_char_constant
  | string_literal | wide_string_literal | header_name
  | utf8_string_literal | utf16_string_literal | utf32_string_literal
  | l_square | r_square | l_paren | r_paren | l_brace | r_brace
  | period | ellipsis | amp | ampamp | ampequal | star | starequal
  | plus | plusplus | plusequal | minus | arrow | minusminus | minusequal
  | tilde | exclaim | exclaimequal | slash | slashequal
  | percent | percentequal
  | less | lessless | lessequal | lesslessequal | spaceship
  | greater | greatergreater | greaterequal | greatergreaterequal
  | caret | caretequal | pipe | pipepipe | pipeequal
  | question | colon | semi | equal | equalequal | comma
  | hash | hashhash | hashat
  | other (n : nat).

(** The integer value of an enumerator: its rank in the declaration. *)
Definition value (k : TokenKind) : Z :=
  match k with
  | unknown => 0 | eof => 1 | eod => 2 | code_completion => 3 | comment => 4
  | identifier => 5 | raw_identifier => 6 | numeric_constant => 7
  | char_constant => 8 | wide_char_constant => 9 | utf8_char_constant => 10
  | utf16_char_constant => 11 | utf32_char_constant => 12
  | string_literal => 13 | wide_string_literal => 14 | header_name => 15
  | utf8_string_literal => 16 | utf16_string_literal => 17
  | utf32_string_literal => 18
  | l_square => 19 | r_square => 20 | l_paren => 21 | r_paren => 22
  | l_brace => 23 | r_brace => 24
  | period => 25 | ellipsis => 26 | amp => 27 | ampamp => 28 | ampequal => 29
  | star => 30 | starequal => 31 | plus => 32 | plusplus => 33
  | plusequal => 34 | minus => 35 | arrow => 36 | minusminus => 37
  | minusequal => 38 | tilde => 39 | exclaim => 40 | exclaimequal => 41
  | slash => 42 | slashequal => 43 | percent => 44 | percentequal => 45
  | less => 46 | lessless => 47 | lessequal => 48 | lesslessequal => 49
  | spaceship => 50 | greater => 51 | greatergreater => 52
  | greaterequal => 53 | greatergreaterequal => 54
  | caret => 55 | caretequal => 56 | pipe => 57 | pipepipe => 58
  | pipeequal => 59 | question => 60 | colon => 61 | semi => 62
  | equal => 63 | equalequal => 64 | comma => 65
  | hash => 66 | hashhash => 67 | hashat => 68
  | other n => 69 + Z.of_nat n
  end.

(** [static_cast<clang::tok::TokenKind>(i)] for an [int] [i]: the
    enumeration has the underlying type [unsigned short]. *)
Definition static_cast (i : Z) : Z := i mod 65536.

(** Comparison of two kinds, as integers. *)
Definition eqb (a b : TokenKind) : bool := value a =? value b.

(** The enumerator of a value. *)
Definition of_value (z : Z) : TokenKind :=
  match z with
  | 0 => unknown | 1 => eof | 2 => eod | 3 => code_completion | 4 => comment
  | 5 => identifier | 6 => raw_identifier | 7 => numeric_constant
  | 8 => char_constant | 9 => wide_char_constant | 10 => utf8_char_constant
  | 11 => utf16_char_constant | 12 => utf32_char_constant
  | 13 => string_literal | 14 => wide_string_literal | 15 => header_name
  | 16 => utf8_string_literal | 17 => utf16_string_literal
  | 18 => utf32_string_literal
  | 19 => l_square | 20 => r_square | 21 => l_paren | 22 => r_paren
  | 23 => l_brace | 24 => r_brace
  | 25 => period | 26 => ellipsis | 27 => amp | 28 => ampamp | 29 => ampequal
  | 30 => star | 31 => starequal | 32 => plus | 33 => plusplus
  | 34 => plusequal | 35 => minus | 36 => arrow | 37 => minusminus
  | 38 => minusequal | 39 => tilde | 40 => exclaim | 41 => exclaimequal
  | 42 => slash | 43 => slashequal | 44 => percent | 45 => percentequal
  | 46 => less | 47 => lessless | 48 => lessequal | 49 => lesslessequal
  | 50 => spaceship | 51 => greater | 52 => greatergreater
  | 53 => greaterequal | 54 => greatergreaterequal
  | 55 => caret | 56 => caretequal | 57 => pipe | 58 => pipepipe
  | 59 => pipeequal | 60 => question | 61 => colon | 62 => semi
  | 63 => equal | 64 => equalequal | 65 => comma
  | 66 => hash | 67 => hashhash | 68 => hashat
  | _ => other (Z.to_nat (z - 69))
  end.

End tok.

(* ===================================================================== *)
(** ** Tokens and the preprocessor                                        *)
(* ===================================================================== *)

(** Modelled from the spec: the class [clang::Token] belongs to clang.
    A token is what the validator looks at in it: its kind and the
    characters it spans, that is
    [StringRef(sourceManager.getCharacterData(token.getLocation()),
               token.getLength())]. *)
Record Token : Type := mkToken {
  getKind : tok.TokenKind;
  tokenText : string
}.

(** [token.isNot(k)]. *)
Definition isNot (t : Token) (k : tok.TokenKind) : bool :=
  negb (tok.eqb (getKind t) k).

(** The token the preprocessor returns at the end of the fragment; it
    spans no character. *)
Definition eof_token : Token := mkToken tok.eof "".

(** Modelled from the spec: [clang::Preprocessor::Lex] belongs to clang;
    the validator uses it as the operation that gives the next token of
    the fragment.  The preprocessor is the list of the tokens it has yet
    to return; once they are used up it returns the end-of-file token,
    again and again.  [Lex pp] is the token that [preprocessor.Lex(token)]
    stores in [token], with the preprocessor after the call. *)
Definition Lex (pp : list Token) : Token * list Token :=
  match pp with
  | [] => (eof_token, [])
  | t :: pp' => (t, pp')
  end.

(** [isspace] of the C locale. *)
Definition isspace (c : ascii) : bool :=
  let n := nat_of_ascii c in
  (n =? 32)%nat || ((9 <=? n)%nat && (n <=? 13)%nat).

(** [tokenText.startswith(p)]. *)
Definition startswith (p s : string) : bool := String.prefix p s.

(** The test of line 77-78 on the text of the token after a [#]:
    [tokenText.startswith("endif") && (tokenText.size() == 5 ||
     tokenText[5]=='/' || isspace(tokenText[5]))]. *)
Definition is_endif (tokenText : string) : bool :=
  startswith "endif" tokenText &&
  ((String.length tokenText =? 5)%nat ||
   match String.get 5 tokenText with
   | Some c => Ascii.eqb c "/"%char || isspace c
   | None => false
   end).

(* ===================================================================== *)
(** ** The validator                                                      *)
(* ===================================================================== *)

(** [enum class ValidationResult]. *)
Inductive ValidationResult : Type :=
  | complete
  | incomplete
  | invalid
  | unknown.

Definition ValidationResult_eqb (a b : ValidationResult) : bool :=
  match a, b with
  | complete, complete | incomplete, incomplete
  | invalid, invalid | unknown, unknown => true
  | _, _ => false
  end.

(** The private fields of [input_validator].  [parenStack] is a
    [std::deque<int>] used through [push_back], [pop_back], [back],
    [size] and [empty] only: the head of the list is [back()]. *)
Record input_validator : Type := mkValidator {
  input : string;
  parenStack : list Z;
  lastResult : ValidationResult
}.

(** A freshly constructed validator. *)
Definition fresh : input_validator := mkValidator "" [] complete.

(** *** The scan (lines 42-87) *)

(** What the [do ... while] loop of [validate] reads and writes: the
    preprocessor, the locals [token], [lastSeenToken] and [result], and
    the field [parenStack]. *)
Record loop_state : Type := mkLoop {
  pp : list Token;
  token : Token;
  lastSeenToken : Token;
  result : ValidationResult;
  stack : list Z
}.

(** [parenStack.back()], read only where the stack is not empty. *)
Definition back (stk : list Z) : Z := hd 0 stk.

(** [parenStack.pop_back()]. *)
Definition pop_back (stk : list Z) : list Z := tl stk.

(** [parenStack.empty()]. *)
Definition empty (stk : list Z) : bool :=
  match stk with [] => true | _ => false end.

(** Lines 57-58: the top of the stack as a token kind, [tok::unknown]
    for an empty stack. *)
Definition tos (stk : list Z) : Z :=
  if empty stk then tok.value tok.unknown else tok.static_cast (back stk).

(** Lines 66-67: the condition under which a closing bracket [k] pops a
    second entry, [stk1] being the stack after the first [pop_back]. *)
Definition template_pop (k : tok.TokenKind) (stk1 : list Z) : bool :=
  tok.eqb k tok.r_brace && (Z.of_nat (List.length stk1) =? 1)
  && (back stk1 =? tok.value tok.less).

(** Lines 56-71: the case of a closing bracket [k]. *)
Definition close_bracket (k : tok.TokenKind) (res : ValidationResult)
    (stk : list Z) : ValidationResult * list Z :=
  if negb (tok.value k =? tos stk + 1) then (invalid, stk)
  else
    let stk1 := pop_back stk in
    (* '}' will also pop a template '<' if their is one *)
    if template_pop k stk1 then (res, pop_back stk1) else (res, stk1).

(** Lines 74-83: the case of a [#], once the token after it is lexed. *)
Definition directive (tokenText : string) (res : ValidationResult)
    (stk : list Z) : ValidationResult * list Z :=
  if startswith "if" tokenText then (res, tok.value tok.hash :: stk)
  else if is_endif tokenText then
    if empty stk || negb (back stk =? tok.value tok.hash)
    then (invalid, stk)
    else (res, pop_back stk)
  else (res, stk).

(** Lines 46-86: one turn of the loop body. *)
Definition loop_body (s : loop_state) : loop_state :=
  let lastSeen := token s in
  let (tk, pp1) := Lex (pp s) in
  match getKind tk with
  | tok.l_square | tok.l_brace | tok.l_paren =>
      mkLoop pp1 tk lastSeen (result s) (tok.value (getKind tk) :: stack s)
  | tok.r_square | tok.r_brace | tok.r_paren =>
      let (res, stk) := close_bracket (getKind tk) (result s) (stack s) in
      mkLoop pp1 tk lastSeen res stk
  | tok.hash =>
      let (tk2, pp2) := Lex pp1 in
      let (res, stk) := directive (tokenText tk2) (result s) (stack s) in
      mkLoop pp2 tk2 lastSeen res stk
  | _ => mkLoop pp1 tk lastSeen (result s) (stack s)
  end.

(** Line 87: the condition of the loop. *)
Definition loop_cond (s : loop_state) : bool :=
  isNot (token s) tok.eof && negb (ValidationResult_eqb (result s) invalid).

(** A turn of the body after which the loop goes on has taken at least
    one token from the preprocessor: the loop ends. *)
Ltac loop_body_consumes_tac s :=
  unfold loop_cond, loop_body, isNot, tok.eqb;
  destruct s as [p t l r st]; simpl;
  destruct p as [|t1 p1]; simpl; [discriminate|];
  destruct (getKind t1); simpl; try lia;
  try (destruct (close_bracket _ _ _); simpl; lia);
  destruct p1 as [|t2 p2]; simpl; [discriminate|];
  destruct (directive _ _ _); simpl; lia.

(** Lines 45-87: the [do ... while] loop. *)
Equations do_while (s : loop_state) : loop_state
  by wf (List.length (pp s)) lt :=
  do_while s with inspect (loop_cond (loop_body s)) := {
    | exist _ true H => do_while (loop_body s)
    | exist _ false _ => loop_body s
  }.
Next Obligation. revert H. loop_body_consumes_tac s. Qed.

(** The loop is entered with the locals [token] and [lastSeenToken]
    as their declaration leaves them (line 43).  [clang::Token] has no
    constructor, so that what they hold is not determined by the
    program: it is the argument [uninit].  Only the one of [token] can
    be read, through [lastSeenToken], and only when the loop stops in
    its first turn. *)
Definition loop_entry (toks : list Token) (uninit : Token)
    (v : input_validator) : loop_state :=
  mkLoop toks uninit uninit complete (parenStack v).

(** Lines 42-87: the scan of the tokens [toks] of a fragment. *)
Definition scan (toks : list Token) (uninit : Token)
    (v : input_validator) : loop_state :=
  do_while (loop_entry toks uninit v).

(** *** The verdict (lines 89-94) *)

Definition should_continue (s : loop_state) : bool :=
  tok.eqb (getKind (lastSeenToken s)) tok.comma.

Definition verdict (s : loop_state) : ValidationResult :=
  if should_continue s
     || (negb (empty (stack s))
         && negb (ValidationResult_eqb (result s) invalid))
  then incomplete
  else result s.

(** *** The text collected (lines 96-99) *)

Definition newline : string := String (ascii_of_nat 10) EmptyString.

Definition string_empty (s : string) : bool :=
  match s with EmptyString => true | _ => false end.

Definition accumulate (buffer code : string) : string :=
  ((if negb (string_empty buffer) then buffer ++ newline else buffer)
   ++ code)%string.

(** *** [validate] (lines 33-103) *)

(** [validate(code, compiler)] on the validator [v], where [toks] are
    the tokens that the preprocessor of [compiler] lexes from [code]
    once [code] is entered as a source file (lines 35-40): the verdict
    returned and the validator after the call. *)
Definition validate (code : string) (toks : list Token) (uninit : Token)
    (v : input_validator) : ValidationResult * input_validator :=
  let s := scan toks uninit v in
  let res := verdict s in
  (res, mkValidator (accumulate (input v) code) (stack s) res).

(** *** [reset] (lines 106-116) *)

(** [reset(code)] on the validator [v].  The argument is [None] for a
    null pointer and [Some s] for a pointer to a string that holds [s].
    The outcome is [None] when the assertion of line 108 fails and
    stops the program, and else what the pointed string holds after the
    call together with the validator after the call. *)
Definition reset (code : option string) (v : input_validator)
    : option (option string * input_validator) :=
  match code with
  | Some s =>
      if string_empty s
      then Some (Some (input v), mkValidator s [] complete)
      else None
  | None => Some (None, mkValidator "" [] complete)
  end.

(** *** [rightClosesLeftBrace] (lines 131-138) *)

(** [rightClosesLeftBrace(r_brace, l_brace_tok_kind)] (lines 131-138). *)
Definition rightClosesLeftBrace (r_brace : Token)
    (l_brace_tok_kind : tok.TokenKind) : bool :=
  match getKind r_brace with
  | tok.r_square | tok.r_brace | tok.r_paren =>
      tok.value (getKind r_brace) =? tok.value l_brace_tok_kind + 1
  | _ => false
  end.

(* ===================================================================== *)
(** ** Turns of the loop, sessions of a validator                       *)
(* ===================================================================== *)

(** The state after [n] turns of the body. *)
Fixpoint turns (n : nat) (s : loop_state) : loop_state :=
  match n with
  | O => s
  | S n' => loop_body (turns n' s)
  end.

(** [visits s0 s]: the loop entered in the state [s0] begins a turn in
    the state [s]. *)
Inductive visits (s0 : loop_state) : loop_state -> Prop :=
  | visits_entry : visits s0 s0
  | visits_turn (s : loop_state) :
      visits s0 s -> loop_cond (loop_body s) = true ->
      visits s0 (loop_body s).

(** The states of a validator that a session can be in: those that
    calls of [validate] and [reset] lead to from a new validator. *)
Inductive reachable : input_validator -> Prop :=
  | reachable_fresh : reachable fresh
  | reachable_validate (v : input_validator) (code : string)
      (toks : list Token) (uninit : Token) :
      reachable v -> reachable (snd (validate code toks uninit v))
  | reachable_reset (v v' : input_validator) (code out : option string) :
      reachable v -> reset code v = Some (out, v') -> reachable v'.

(** One call of [validate]: the fragment, its tokens, and what the
    locals of the call hold at their declaration. *)
Record call : Type := mkCall {
  call_code : string;
  call_toks : list Token;
  call_uninit : Token
}.

(** The validator after a sequence of calls of [validate]. *)
Definition validate_calls (calls : list call) (v : input_validator)
    : input_validator :=
  fold_left
    (fun v c => snd (validate (call_code c) (call_toks c) (call_uninit c) v))
    calls v.

(* ===================================================================== *)
(** ** The vocabulary of the properties                                 *)
(* ===================================================================== *)

(** The opening brackets, [[], [{] and [(]. *)
Definition opener (k : tok.TokenKind) : bool :=
  match k with
  | tok.l_square | tok.l_brace | tok.l_paren => true
  | _ => false
  end.

(** The closing brackets, []], [}] and [)]. *)
Definition closer (k : tok.TokenKind) : bool :=
  match k with
  | tok.r_square | tok.r_brace | tok.r_paren => true
  | _ => false
  end.

(** The closing bracket of an opening bracket. *)
Definition closer_of (k : tok.TokenKind) : tok.TokenKind :=
  match k with
  | tok.l_square => tok.r_square
  | tok.l_brace => tok.r_brace
  | tok.l_paren => tok.r_paren
  | _ => k
  end.

(** The opening bracket that a closing bracket closes. *)
Definition opener_of (k : tok.TokenKind) : tok.TokenKind :=
  match k with
  | tok.r_square => tok.l_square
  | tok.r_brace => tok.l_brace
  | tok.r_paren => tok.l_paren
  | _ => k
  end.

(** A token without effect on the stack that the switch can dispatch:
    neither a bracket, nor a [#], nor the end of the file. *)
Definition plain (k : tok.TokenKind) : bool :=
  negb (opener k) && negb (closer k)
  && negb (tok.eqb k tok.hash) && negb (tok.eqb k tok.eof).

(** The values the scan pushes: the kinds of the three opening brackets
    and, for an open conditional, the kind of [#]. *)
Definition marker (z : Z) : Prop :=
  z = tok.value tok.l_square \/ z = tok.value tok.l_brace \/
  z = tok.value tok.l_paren \/ z = tok.value tok.hash.

Definition wf_stack (stk : list Z) : Prop := Forall marker stk.

(** A stretch of tokens without structural defect: every bracket and
    every conditional opened in it is closed in it, in the right order;
    [#] is followed by a token, the name of the directive. *)
Inductive balanced : list Token -> Prop :=
  | balanced_nil : balanced []
  | balanced_plain (t : Token) (l : list Token) :
      plain (getKind t) = true -> balanced l -> balanced (t :: l)
  | balanced_brackets (o c : Token) (l1 l2 : list Token) :
      opener (getKind o) = true -> getKind c = closer_of (getKind o) ->
      balanced l1 -> balanced l2 -> balanced (o :: l1 ++ c :: l2)
  | balanced_directive (h d : Token) (l : list Token) :
      getKind h = tok.hash -> getKind d <> tok.eof ->
      startswith "if" (tokenText d) = false ->
      is_endif (tokenText d) = false ->
      balanced l -> balanced (h :: d :: l)
  | balanced_conditional (h1 d1 h2 d2 : Token) (l1 l2 : list Token) :
      getKind h1 = tok.hash -> getKind d1 <> tok.eof ->
      startswith "if" (tokenText d1) = true ->
      getKind h2 = tok.hash -> getKind d2 <> tok.eof ->
      is_endif (tokenText d2) = true ->
      balanced l1 -> balanced l2 ->
      balanced (h1 :: d1 :: l1 ++ h2 :: d2 :: l2).

(** The turn begun in [s] sees an opening token: an opening bracket, or
    a [#] followed by a token whose text begins with [if]. *)
Definition sees_opening (s : loop_state) : bool :=
  let (tk, pp1) := Lex (pp s) in
  opener (getKind tk)
  || (tok.eqb (getKind tk) tok.hash
      && startswith "if" (tokenText (fst (Lex pp1)))).

(** The turn begun in [s] sees a closing token while the top of the
    stack is the corresponding opener: a closing bracket on its opening
    bracket, or a [#] followed by [endif] on the marker of a
    conditional. *)
Definition sees_matching_closing (s : loop_state) : bool :=
  let (tk, pp1) := Lex (pp s) in
  match stack s with
  | [] => false
  | top :: _ =>
      (closer (getKind tk) && (top =? tok.value (opener_of (getKind tk))))
      || (tok.eqb (getKind tk) tok.hash
          && is_endif (tokenText (fst (Lex pp1)))
          && (top =? tok.value tok.hash))
  end.

(** The number of turns, among the first [n] of the loop entered in
    [s0], that see an opening token. *)
Fixpoint opened (n : nat) (s0 : loop_state) : nat :=
  match n with
  | O => 0
  | S n' => opened n' s0 + (if sees_opening (turns n' s0) then 1 else 0)
  end.

(** The number of turns, among the first [n], that see a matching
    closing token. *)
Fixpoint closed (n : nat) (s0 : loop_state) : nat :=
  match n with
  | O => 0
  | S n' =>
      closed n' s0 + (if sees_matching_closing (turns n' s0) then 1 else 0)
  end.

(** Where the scan of a fragment that ends with the token [c] is at the
    beginning of a turn: before [c], or after it with [c] in [token]. *)
Definition heads_for (c : Token) (s : loop_state) : Prop :=
  (exists l, pp s = l ++ [c] /\ Forall (fun t => getKind t <> tok.eof) l) \/
  (pp s = [] /\ token s = c).

(** The newline-joined concatenation of fragments, in the words of the
    specification: the fragments in order, a newline between each two. *)
Definition newline_joined (fragments : list string) : string :=
  String.concat newline fragments.

(** The fragments from the first that is not empty. *)
Fixpoint drop_leading_empty (fragments : list string) : list string :=
  match fragments with
  | EmptyString :: rest => drop_leading_empty rest
  | _ => fragments
  end.

(** A newline and a fragment, for each fragment. *)
Fixpoint lines_after (fragments : list string) : string :=
  match fragments with
  | [] => EmptyString
  | f :: rest => (newline ++ f ++ lines_after rest)%string
  end.

(** The opening brackets of a token stream that are still unmatched, in
    the words of the claim on the depth of the stack: [open] holds the
    brackets left open before the tokens, the last opened first; every
    opening bracket of the stream opens, and a closing bracket closes
    the bracket opened last when that is its opening bracket. *)
Fixpoint open_brackets (toks : list Token) (open : list Z) : list Z :=
  match toks with
  | [] => open
  | t :: rest =>
      if opener (getKind t)
      then open_brackets rest (tok.value (getKind t) :: open)
      else if closer (getKind t)
      then match open with
           | top :: open' =>
               if top =? tok.value (opener_of (getKind t))
               then open_brackets rest open'
               else open_brackets rest open
           | [] => open_brackets rest open
           end
      else open_brackets rest open
  end.

(** The tokens end with a [#] that begins a turn of the loop: the word
    of its directive is not among them. *)
Fixpoint cut_after_hash (toks : list Token) : bool :=
  match toks with
  | [] => false
  | t :: rest =>
      if tok.eqb (getKind t) tok.hash
      then match rest with
           | [] => true
           | _ :: rest' => cut_after_hash rest'
           end
      else cut_after_hash rest
  end.

(** Two states of the loop that differ at most in [token] and
    [lastSeenToken]. *)
Definition same_scan (a b : loop_state) : Prop :=
  pp a = pp b /\ result a = result b /\ stack a = stack b.

(** Two states of the loop that differ at most in [lastSeenToken]. *)
Definition same_but_seen (a b : loop_state) : Prop :=
  pp a = pp b /\ token a = token b /\ result a = result b /\
  stack a = stack b.

(* ===================================================================== *)
(** ** The fragments of the examples                                      *)
(* ===================================================================== *)

(** The token streams of the fragments that the examples validate, as a
    C++ lexer cuts them: white space separates tokens and is no token. *)
Module Fragments.

Definition ident (s : string) : Token := mkToken tok.identifier s.
Definition number (s : string) : Token := mkToken tok.numeric_constant s.
Definition l_paren : Token := mkToken tok.l_paren "(".
Definition r_paren : Token := mkToken tok.r_paren ")".
Definition l_brace : Token := mkToken tok.l_brace "{".
Definition r_brace : Token := mkToken tok.r_brace "}".
Definition less : Token := mkToken tok.less "<".
Definition greater : Token := mkToken tok.greater ">".
Definition comma : Token := mkToken tok.comma ",".
Definition semi : Token := mkToken tok.semi ";".
Definition hash : Token := mkToken tok.hash "#".

(** [Foo<Bar{1,2}>] *)
Definition template_init : list Token :=
  [ident "Foo"; less; ident "Bar"; l_brace; number "1"; comma; number "2";
   r_brace; greater].

(** [foo(1, 2,] *)
Definition call_open : list Token :=
  [ident "foo"; l_paren; number "1"; comma; number "2"; comma].

(** [3)] *)
Definition call_close : list Token := [number "3"; r_paren].

(** [#if X]; [k] is the kind the preprocessor gives to the word [if]. *)
Definition if_X (k : tok.TokenKind) : list Token :=
  [hash; mkToken k "if"; ident "X"].

(** [#endif] *)
Definition endif : list Token := [hash; ident "endif"].

(** [x;] *)
Definition x_semi : list Token := [ident "x"; semi].

(** The characters of a token stream. *)
Definition spelling (toks : list Token) : string :=
  String.concat "" (map tokenText toks).

(** A text with its white space left out. *)
Fixpoint without_spaces (s : string) : string :=
  match s with
  | EmptyString => EmptyString
  | String c rest =>
      if isspace c then without_spaces rest
      else String c (without_spaces rest)
  end.

End Fragments.

(* ##################################################################### *)
(** * Part II: the properties                                         *)
(* ##################################################################### *)

(* ===================================================================== *)
(** ** Token kinds                                                      *)
(* ===================================================================== *)

Lemma tok_of_value_value (k : tok.TokenKind) :
  tok.of_value (tok.value k) = k.
Proof.
  destruct k as [ | | | | | | | | | | | | | | | | | | | | | | | | | | | | | |
                  | | | | | | | | | | | | | | | | | | | | | | | | | | | | | |
                  | | | | | | | | | n ]; try reflexivity.
  assert (H : forall z, 69 <= z ->
                        tok.of_value z = tok.other (Z.to_nat (z - 69))).
  { intros z Hz. destruct z as [|p|p]; try lia.
    do 7 (try (destruct p as [p|p|]; try lia)); reflexivity. }
  unfold tok.value. rewrite H by lia. f_equal. lia.
Qed.

(** No two kinds have the same value. *)
Lemma tok_value_inj (a b : tok.TokenKind) :
  tok.value a = tok.value b -> a = b.
Proof.
  intros E. rewrite <- (tok_of_value_value a), <- (tok_of_value_value b), E.
  reflexivity.
Qed.

Lemma tok_eqb_eq (a b : tok.TokenKind) : tok.eqb a b = true <-> a = b.
Proof.
  unfold tok.eqb. rewrite Z.eqb_eq. split.
  - apply tok_value_inj.
  - intros ->. reflexivity.
Qed.

Lemma tok_eqb_neq (a b : tok.TokenKind) : tok.eqb a b = false <-> a <> b.
Proof.
  rewrite <- tok_eqb_eq. destruct (tok.eqb a b); split; congruence.
Qed.

(* ===================================================================== *)
(** ** The fragments of the examples, spelt                               *)
(* ===================================================================== *)

(** The token streams of the examples spell their fragments. *)
Lemma fragments_spelling (k : tok.TokenKind) :
  Fragments.spelling Fragments.template_init = "Foo<Bar{1,2}>" /\
  Fragments.spelling Fragments.call_open
  = Fragments.without_spaces "foo(1, 2," /\
  Fragments.spelling Fragments.call_close = "3)" /\
  Fragments.spelling (Fragments.if_X k) = Fragments.without_spaces "#if X" /\
  Fragments.spelling Fragments.endif = "#endif" /\
  Fragments.spelling Fragments.x_semi = "x;".
Proof. repeat split; reflexivity. Qed.

(* ===================================================================== *)
(** ** The loop: unfolding, induction, the states it goes through         *)
(* ===================================================================== *)

(** A turn of the body after which the loop goes on has taken at least
    one token from the preprocessor. *)
Lemma loop_body_consumes (s : loop_state) :
  loop_cond (loop_body s) = true ->
  (List.length (pp (loop_body s)) < List.length (pp s))%nat.
Proof. loop_body_consumes_tac s. Qed.

Lemma do_while_eq (s : loop_state) :
  do_while s =
  if loop_cond (loop_body s) then do_while (loop_body s) else loop_body s.
Proof.
  rewrite do_while_equation_1.
  destruct (Logic.inspect (loop_cond (loop_body s))) as [[] e];
    simpl; rewrite e; reflexivity.
Qed.

(** Induction along the turns of the loop. *)
Lemma loop_ind (P : loop_state -> loop_state -> Prop) :
  (forall s, loop_cond (loop_body s) = true ->
             P (loop_body s) (do_while (loop_body s)) ->
             P s (do_while (loop_body s))) ->
  (forall s, loop_cond (loop_body s) = false -> P s (loop_body s)) ->
  forall s, P s (do_while s).
Proof.
  intros Hgo Hstop s.
  remember (List.length (pp s)) as n eqn:Hn.
  revert s Hn.
  induction n as [n IH] using lt_wf_ind.
  intros s Hn.
  rewrite do_while_eq.
  destruct (loop_cond (loop_body s)) eqn:C.
  - apply Hgo; [assumption|].
    apply (IH (List.length (pp (loop_body s)))); [|reflexivity].
    subst n. apply loop_body_consumes. assumption.
  - apply Hstop. assumption.
Qed.

(** The loop is left on its condition only: with the end-of-file token
    in [token], or with the result [invalid]. *)
Lemma do_while_exit (s : loop_state) : loop_cond (do_while s) = false.
Proof.
  apply (loop_ind (fun _ r => loop_cond r = false)); auto.
Qed.

Lemma visits_trans (s0 s1 s2 : loop_state) :
  visits s0 s1 -> visits s1 s2 -> visits s0 s2.
Proof.
  intros H01 H12. induction H12.
  - assumption.
  - apply visits_turn; assumption.
Qed.

Lemma visits_do_while (s0 s : loop_state) :
  visits s0 s -> do_while s0 = do_while s.
Proof.
  induction 1 as [|s Hv IH Hc].
  - reflexivity.
  - rewrite IH, (do_while_eq s), Hc. reflexivity.
Qed.

Lemma visits_turns (s0 s : loop_state) :
  visits s0 s -> exists n, s = turns n s0.
Proof.
  induction 1 as [|s Hv [n IH] Hc].
  - exists O. reflexivity.
  - exists (S n). simpl. rewrite <- IH. reflexivity.
Qed.

Lemma do_while_turns (s0 : loop_state) :
  exists n, do_while s0 = turns (S n) s0.
Proof.
  apply (loop_ind (fun s r => exists n, r = turns (S n) s)).
  - intros s _ [n IH]. exists (S n). rewrite IH.
    clear. induction n as [|n IHn]; simpl in *; [reflexivity|].
    rewrite IHn. reflexivity.
  - intros s _. exists O. reflexivity.
Qed.

(* ===================================================================== *)
(** ** The turn of the body, by the kind of the token it lexes            *)
(* ===================================================================== *)

Lemma loop_body_eof (s : loop_state) :
  pp s = [] ->
  loop_body s = mkLoop [] eof_token (token s) (result s) (stack s).
Proof. unfold loop_body. intros ->. reflexivity. Qed.

Lemma loop_body_opener (s : loop_state) (t : Token) (rest : list Token) :
  pp s = t :: rest -> opener (getKind t) = true ->
  loop_body s =
  mkLoop rest t (token s) (result s) (tok.value (getKind t) :: stack s).
Proof.
  unfold loop_body. intros ->. simpl.
  destruct (getKind t); simpl; try discriminate; reflexivity.
Qed.

Lemma loop_body_closer (s : loop_state) (t : Token) (rest : list Token) :
  pp s = t :: rest -> closer (getKind t) = true ->
  loop_body s =
  mkLoop rest t (token s)
         (fst (close_bracket (getKind t) (result s) (stack s)))
         (snd (close_bracket (getKind t) (result s) (stack s))).
Proof.
  unfold loop_body. intros ->. simpl.
  destruct (getKind t); simpl; try discriminate;
    destruct (close_bracket _ _ _); reflexivity.
Qed.

Lemma loop_body_hash (s : loop_state) (t : Token) (rest : list Token) :
  pp s = t :: rest -> getKind t = tok.hash ->
  loop_body s =
  mkLoop (snd (Lex rest)) (fst (Lex rest)) (token s)
         (fst (directive (tokenText (fst (Lex rest))) (result s) (stack s)))
         (snd (directive (tokenText (fst (Lex rest))) (result s) (stack s))).
Proof.
  unfold loop_body. intros -> K. simpl. rewrite K.
  destruct (Lex rest) as [tk2 pp2]. simpl.
  destruct (directive _ _ _); reflexivity.
Qed.

Lemma loop_body_other (s : loop_state) (t : Token) (rest : list Token) :
  pp s = t :: rest ->
  opener (getKind t) = false -> closer (getKind t) = false ->
  getKind t <> tok.hash ->
  loop_body s = mkLoop rest t (token s) (result s) (stack s).
Proof.
  unfold loop_body. intros -> Ho Hc Hh. simpl.
  destruct (getKind t); simpl in *; try discriminate; try reflexivity.
  congruence.
Qed.

Lemma plain_other (k : tok.TokenKind) :
  plain k = true ->
  opener k = false /\ closer k = false /\ k <> tok.hash /\ k <> tok.eof.
Proof.
  unfold plain. rewrite !andb_true_iff, !negb_true_iff, !tok_eqb_neq.
  tauto.
Qed.

(** The condition of the loop, spelt out. *)
Lemma loop_cond_true (s : loop_state) :
  loop_cond s = true <-> getKind (token s) <> tok.eof /\ result s <> invalid.
Proof.
  unfold loop_cond, isNot.
  rewrite andb_true_iff, !negb_true_iff, tok_eqb_neq.
  destruct (result s); simpl; intuition congruence.
Qed.

Lemma loop_cond_false (s : loop_state) :
  loop_cond s = false <-> getKind (token s) = tok.eof \/ result s = invalid.
Proof.
  unfold loop_cond, isNot.
  rewrite andb_false_iff, !negb_false_iff, tok_eqb_eq.
  destruct (result s); simpl; intuition congruence.
Qed.

(* ===================================================================== *)
(** ** What the stack holds                                               *)
(* ===================================================================== *)

Lemma wf_stack_pop (stk : list Z) : wf_stack stk -> wf_stack (pop_back stk).
Proof. intros H. destruct H; simpl; [constructor | assumption]. Qed.

(** No stack of markers meets the condition of line 66-67. *)
Lemma template_pop_wf (k : tok.TokenKind) (stk1 : list Z) :
  wf_stack stk1 -> template_pop k stk1 = false.
Proof.
  intros H. unfold template_pop.
  destruct H as [|z stk Hz _]; simpl.
  - rewrite andb_false_r. reflexivity.
  - rewrite !andb_false_iff. right. apply Z.eqb_neq.
    unfold marker in Hz. simpl in *. lia.
Qed.

(** On a stack of markers a closing bracket pops at most one entry. *)
Lemma close_bracket_wf (k : tok.TokenKind) (res : ValidationResult)
    (stk : list Z) :
  wf_stack stk ->
  close_bracket k res stk =
  if tok.value k =? tos stk + 1 then (res, pop_back stk) else (invalid, stk).
Proof.
  intros H. unfold close_bracket.
  destruct (tok.value k =? tos stk + 1); simpl; [|reflexivity].
  rewrite template_pop_wf by (apply wf_stack_pop; assumption).
  reflexivity.
Qed.

Lemma close_bracket_keeps_wf (k : tok.TokenKind) (res : ValidationResult)
    (stk : list Z) :
  wf_stack stk -> wf_stack (snd (close_bracket k res stk)).
Proof.
  intros H. rewrite close_bracket_wf by assumption.
  destruct (tok.value k =? tos stk + 1); simpl;
    [apply wf_stack_pop|]; assumption.
Qed.

Lemma directive_keeps_wf (text : string) (res : ValidationResult)
    (stk : list Z) :
  wf_stack stk -> wf_stack (snd (directive text res stk)).
Proof.
  intros H. unfold directive.
  destruct (startswith "if" text); simpl.
  - constructor; [unfold marker; tauto | assumption].
  - destruct (is_endif text); simpl; [|assumption].
    destruct (empty stk || _); simpl; [|apply wf_stack_pop]; assumption.
Qed.

Lemma loop_body_keeps_wf (s : loop_state) :
  wf_stack (stack s) -> wf_stack (stack (loop_body s)).
Proof.
  intros H. destruct (pp s) as [|t rest] eqn:P.
  - rewrite loop_body_eof by assumption. assumption.
  - destruct (opener (getKind t)) eqn:Ho.
    { rewrite (loop_body_opener s t rest) by assumption. simpl.
      constructor; [|assumption].
      unfold marker. destruct (getKind t); simpl in *;
        try discriminate; tauto. }
    destruct (closer (getKind t)) eqn:Hc.
    { rewrite (loop_body_closer s t rest) by assumption. simpl.
      apply close_bracket_keeps_wf. assumption. }
    destruct (tok.eqb (getKind t) tok.hash) eqn:Hh.
    { apply tok_eqb_eq in Hh.
      rewrite (loop_body_hash s t rest) by assumption. simpl.
      apply directive_keeps_wf. assumption. }
    apply tok_eqb_neq in Hh.
    rewrite (loop_body_other s t rest) by assumption. assumption.
Qed.

Lemma turns_keep_wf (n : nat) (s : loop_state) :
  wf_stack (stack s) -> wf_stack (stack (turns n s)).
Proof.
  intros H. induction n as [|n IH]; simpl;
    [|apply loop_body_keeps_wf]; assumption.
Qed.

Lemma do_while_keeps_wf (s : loop_state) :
  wf_stack (stack s) -> wf_stack (stack (do_while s)).
Proof.
  intros H. destruct (do_while_turns s) as [n ->].
  apply turns_keep_wf. assumption.
Qed.

Lemma reachable_wf (v : input_validator) :
  reachable v -> wf_stack (parenStack v).
Proof.
  induction 1 as [|v code toks uninit Hv IH|v v' code out Hv IH Hr].
  - constructor.
  - simpl. apply do_while_keeps_wf. assumption.
  - unfold reset in Hr. destruct code as [c|].
    + destruct (string_empty c); [|discriminate].
      injection Hr as _ <-. constructor.
    + injection Hr as _ <-. constructor.
Qed.

(* ===================================================================== *)
(** ** [reset] gives back a new validator                                 *)
(* ===================================================================== *)

(** [reset] returns whenever its argument is null or points to an empty
    string. *)
Lemma reset_returns (code : option string) (v : input_validator) :
  code = None \/ code = Some "" ->
  exists out, reset code v = Some (out, fresh).
Proof.
  intros [-> | ->]; simpl; eauto.
Qed.

Lemma reset_fresh (code out : option string) (v v' : input_validator) :
  reset code v = Some (out, v') -> v' = fresh.
Proof.
  unfold reset. destruct code as [s|].
  - destruct s; simpl; [|discriminate].
    intros E. injection E as _ <-. reflexivity.
  - intros E. injection E as _ <-. reflexivity.
Qed.

(** C9.  A call of [reset] without an output argument (a null pointer)
    and a call with one (a pointer to an empty string, as line 108
    requires) both return, whatever the validator went through before,
    and leave the state of a new validator: the stack is empty, the
    text collected is empty and the last verdict is [complete]; the
    call with an output argument hands back the text collected.  So
    does every call of [reset] that returns.  A call of [validate] made
    then returns the verdict and leaves the state that the same call
    returns and leaves on a new validator. *)
Theorem C9_reset_restores_fresh (v : input_validator) :
  reset None v = Some (None, fresh) /\
  reset (Some "") v = Some (Some (input v), fresh) /\
  forall (code out : option string) (v' : input_validator),
    reset code v = Some (out, v') ->
    parenStack v' = [] /\ input v' = "" /\ lastResult v' = complete /\
    forall (fragment : string) (toks : list Token) (uninit : Token),
      validate fragment toks uninit v' = validate fragment toks uninit fresh.
Proof.
  split; [reflexivity|]. split; [reflexivity|].
  intros code out v' H. apply reset_fresh in H. subst v'.
  repeat split; reflexivity.
Qed.

Lemma C9_reset_restores_fresh_witness :
  let v := snd (validate "foo(1, 2," Fragments.call_open
                         (mkToken tok.unknown "") fresh) in
  parenStack v = [tok.value tok.l_paren] /\
  input v = "foo(1, 2," /\
  exists v',
    reset (Some "") v = Some (Some "foo(1, 2,", v') /\
    parenStack v' = [] /\ input v' = "" /\ lastResult v' = complete /\
    validate "x;" Fragments.x_semi (mkToken tok.unknown "") v' =
    (complete, mkValidator "x;" [] complete).
Proof.
  split; [vm_compute; reflexivity|].
  split; [vm_compute; reflexivity|].
  exists fresh. split; [vm_compute; reflexivity|].
  destruct (C9_reset_restores_fresh
              (snd (validate "foo(1, 2," Fragments.call_open
                             (mkToken tok.unknown "") fresh)))
    as (_ & _ & G).
  destruct (G (Some "") (Some "foo(1, 2,") fresh) as (S & I & L & V).
  { vm_compute. reflexivity. }
  split; [exact S|]. split; [exact I|]. split; [exact L|].
  transitivity (validate "x;" Fragments.x_semi (mkToken tok.unknown "") fresh);
    [exact (V "x;" Fragments.x_semi (mkToken tok.unknown "")) |].
  vm_compute. reflexivity.
Defined.

(* ===================================================================== *)
(** ** No template marker is ever on the stack                            *)
(* ===================================================================== *)

Lemma wf_stack_no_less (stk : list Z) :
  wf_stack stk -> ~ In (tok.value tok.less) stk.
Proof.
  intros H Hin. unfold wf_stack in H. rewrite Forall_forall in H.
  apply H in Hin. unfold marker in Hin. simpl in Hin. lia.
Qed.

(** C10.  In every state that a validator can reach, and after any
    number of turns of the loop of a call of [validate] made in such a
    state, the stack holds nothing but the kinds of the three opening
    brackets and of [#].  The kind [less] is not among them: no token
    pushes it.  Hence the condition under which a closing brace pops a
    template marker (line 66-67) is false each time it is evaluated. *)
Theorem C10_no_template_marker
    (v : input_validator) (toks : list Token) (uninit : Token) (n : nat) :
  reachable v ->
  let s := turns n (loop_entry toks uninit v) in
  wf_stack (parenStack v) /\
  wf_stack (stack s) /\
  ~ In (tok.value tok.less) (stack s) /\
  forall k : tok.TokenKind, template_pop k (pop_back (stack s)) = false.
Proof.
  intros Hv s.
  assert (Wv : wf_stack (parenStack v)) by (apply reachable_wf; assumption).
  assert (Ws : wf_stack (stack s)) by (apply turns_keep_wf; assumption).
  repeat split; try assumption.
  - apply wf_stack_no_less. assumption.
  - intros k. apply template_pop_wf, wf_stack_pop. assumption.
Qed.

Lemma C10_no_template_marker_witness :
  let v := snd (validate "foo(1, 2," Fragments.call_open
                         (mkToken tok.unknown "") fresh) in
  let s := turns 4 (loop_entry Fragments.template_init
                      (mkToken tok.unknown "") v) in
  reachable v /\
  stack s = [tok.value tok.l_brace; tok.value tok.l_paren] /\
  ~ In (tok.value tok.less) (stack s) /\
  template_pop tok.r_brace (pop_back (stack s)) = false.
Proof.
  assert (R : reachable (snd (validate "foo(1, 2," Fragments.call_open
                                       (mkToken tok.unknown "") fresh)))
    by apply reachable_validate, reachable_fresh.
  split; [exact R|].
  split; [vm_compute; reflexivity|].
  destruct (C10_no_template_marker _ Fragments.template_init
              (mkToken tok.unknown "") 4 R) as (_ & _ & N & T).
  split; [exact N | exact (T tok.r_brace)].
Defined.

(* ===================================================================== *)
(** ** The fragment [Foo<Bar{1,2}>]                                       *)
(* ===================================================================== *)

(** C3.  What the code does on [Foo<Bar{1,2}>], from a new validator.
    The verdict is [complete], but not by the mechanism of the claim:
    the token [<] falls in the default case of the switch and pushes
    nothing, so that the stack is empty after it; [{] pushes the one
    entry of the scan; when [}] comes the condition of line 66-67 is
    false, the stack being empty after the brace is popped; [>] has no
    effect either.  The loop makes ten turns, one for each token and
    one for the end of the file. *)
Theorem C3_template_marker_not_pushed (uninit : Token) :
  let s0 := loop_entry Fragments.template_init uninit fresh in
  token (turns 2 s0) = Fragments.less /\ stack (turns 2 s0) = [] /\
  token (turns 4 s0) = Fragments.l_brace /\
  stack (turns 4 s0) = [tok.value tok.l_brace] /\
  Lex (pp (turns 7 s0)) = (Fragments.r_brace, [Fragments.greater]) /\
  template_pop tok.r_brace (pop_back (stack (turns 7 s0))) = false /\
  stack (turns 8 s0) = [] /\
  token (turns 9 s0) = Fragments.greater /\ stack (turns 9 s0) = [] /\
  scan Fragments.template_init uninit fresh = turns 10 s0 /\
  validate "Foo<Bar{1,2}>" Fragments.template_init uninit fresh =
  (complete, mkValidator "Foo<Bar{1,2}>" [] complete).
Proof.
  repeat split; vm_compute; reflexivity.
Qed.

(* ===================================================================== *)
(** ** Conditionals of the preprocessor                                   *)
(* ===================================================================== *)

(** The test of line 77-78, read on the text: the text is [endif]
    followed by nothing, or by a [/], or by a white space. *)
Lemma is_endif_spec (text : string) :
  is_endif text = true <->
  exists rest, text = ("endif" ++ rest)%string /\
    (rest = "" \/
     exists c rest', rest = String c rest' /\
                     (c = "/"%char \/ isspace c = true)).
Proof.
  unfold is_endif, startswith. split.
  - intros H. apply andb_true_iff in H. destruct H as [Hp Hq].
    destruct text as [|c0 [|c1 [|c2 [|c3 [|c4 rest]]]]];
      cbn [String.prefix] in Hp; try discriminate;
      repeat match type of Hp with
      | (if ascii_dec ?a ?b then _ else _) = true =>
          destruct (ascii_dec a b); [subst|discriminate]
      end.
    exists rest. split; [reflexivity|].
    destruct rest as [|c rest']; [left; reflexivity|right].
    exists c, rest'. split; [reflexivity|].
    simpl in Hq. apply orb_true_iff in Hq.
    destruct Hq as [Hq|Hq]; [|right; assumption].
    left. apply Ascii.eqb_eq in Hq. assumption.
  - intros [rest [-> Hr]]. simpl.
    destruct Hr as [->|[c [rest' [-> [->|Hc]]]]]; simpl.
    + reflexivity.
    + reflexivity.
    + rewrite Hc. apply orb_true_r.
Qed.

(** A text that passes the test of [endif] does not begin with [if]. *)
Lemma is_endif_not_if (text : string) :
  is_endif text = true -> startswith "if" text = false.
Proof.
  intros H. apply is_endif_spec in H. destruct H as [rest [-> _]].
  reflexivity.
Qed.

(** The state a validator is in after [#if X], whatever the kind of the
    word [if] and whatever the locals held. *)
Lemma validate_if_X (k : tok.TokenKind) (uninit : Token) :
  validate "#if X" (Fragments.if_X k) uninit fresh =
  (incomplete, mkValidator "#if X" [tok.value tok.hash] incomplete).
Proof.
  unfold validate, scan. rewrite do_while_eq.
  rewrite (loop_body_hash _ Fragments.hash
             [mkToken k "if"; Fragments.ident "X"])
    by reflexivity.
  cbn [Lex fst snd tokenText directive startswith String.prefix loop_entry
       result stack parenStack fresh token].
  destruct (loop_cond _) eqn:C.
  - vm_compute. reflexivity.
  - unfold verdict, accumulate; simpl.
    destruct (should_continue _); reflexivity.
Qed.

(** The conditionals of the preprocessor, turn by turn and on the
    examples (the part of C5 that the code keeps).  In a turn of the
    loop that lexes a [#] and then a token [d]:
    - if the text of [d] begins with [if], the marker of a conditional
      (the kind of [#]) is pushed;
    - if the text of [d] is [endif] followed by nothing, a [/] or a
      white space, and the marker is on top of the stack, it is popped;
    - if the text is such and the stack is empty or has another top,
      the result is [invalid] (and the loop stops, by its condition).
    On a new validator [#if X] is therefore [incomplete] and [#endif]
    after it [complete].  [#endif] alone on a new validator is
    [invalid]: the loop stops in its first turn, where [lastSeenToken]
    holds what the local [token] held before any assignment, and the
    verdict is as stated unless that is a comma. *)
Theorem C5_conditional_directives :
  (forall (s : loop_state) (h d : Token) (rest : list Token),
      pp s = h :: d :: rest -> getKind h = tok.hash ->
      startswith "if" (tokenText d) = true ->
      stack (loop_body s) = tok.value tok.hash :: stack s /\
      result (loop_body s) = result s) /\
  (forall (s : loop_state) (h d : Token) (rest : list Token) (stk : list Z),
      pp s = h :: d :: rest -> getKind h = tok.hash ->
      is_endif (tokenText d) = true ->
      stack s = tok.value tok.hash :: stk ->
      stack (loop_body s) = stk /\ result (loop_body s) = result s) /\
  (forall (s : loop_state) (h d : Token) (rest : list Token),
      pp s = h :: d :: rest -> getKind h = tok.hash ->
      is_endif (tokenText d) = true ->
      stack s = [] \/ back (stack s) <> tok.value tok.hash ->
      stack (loop_body s) = stack s /\ result (loop_body s) = invalid /\
      loop_cond (loop_body s) = false) /\
  (forall (k : tok.TokenKind) (uninit1 uninit2 : Token),
      let first := validate "#if X" (Fragments.if_X k) uninit1 fresh in
      fst first = incomplete /\
      fst (validate "#endif" Fragments.endif uninit2 (snd first))
      = complete) /\
  (forall uninit : Token,
      getKind uninit <> tok.comma ->
      fst (validate "#endif" Fragments.endif uninit fresh) = invalid).
Proof.
  split; [|split; [|split; [|split]]].
  - intros s h d rest P K I.
    rewrite (loop_body_hash s h (d :: rest)) by assumption.
    cbn [Lex fst snd stack result]. unfold directive. rewrite I.
    split; reflexivity.
  - intros s h d rest stk P K E S.
    rewrite (loop_body_hash s h (d :: rest)) by assumption.
    cbn [Lex fst snd stack result]. unfold directive.
    rewrite (is_endif_not_if _ E), E, S. simpl. split; reflexivity.
  - intros s h d rest P K E S.
    rewrite (loop_body_hash s h (d :: rest)) by assumption.
    unfold loop_cond.
    cbn [Lex fst snd stack result token]. unfold directive.
    rewrite (is_endif_not_if _ E), E.
    assert (T : empty (stack s) || negb (back (stack s) =? tok.value tok.hash)
                = true).
    { destruct S as [->|S]; [reflexivity|].
      apply orb_true_iff. right. apply negb_true_iff, Z.eqb_neq. assumption. }
    rewrite T. simpl. rewrite andb_false_r. repeat split; reflexivity.
  - intros k uninit1 uninit2 first. subst first.
    rewrite validate_if_X. split; [reflexivity|].
    vm_compute. reflexivity.
  - intros uninit H.
    unfold validate, scan. rewrite do_while_eq.
    rewrite (loop_body_hash _ Fragments.hash [Fragments.ident "endif"])
      by reflexivity.
    simpl. unfold verdict, should_continue. simpl.
    apply tok_eqb_neq in H. rewrite H. reflexivity.
Qed.

Lemma C5_conditional_directives_witness :
  let u := mkToken tok.unknown "" in
  let open := mkValidator "#if X" [tok.value tok.hash] incomplete in
  stack (loop_body (loop_entry (Fragments.if_X tok.identifier) u fresh))
  = [tok.value tok.hash] /\
  stack (loop_body (loop_entry Fragments.endif u open)) = [] /\
  result (loop_body (loop_entry Fragments.endif u fresh)) = invalid /\
  fst (validate "#endif" Fragments.endif u fresh) = invalid.
Proof.
  destruct C5_conditional_directives as (Push & Pop & Bad & _ & Alone).
  split; [|split; [|split]].
  - apply (Push (loop_entry (Fragments.if_X tok.identifier)
                            (mkToken tok.unknown "") fresh)
                Fragments.hash (mkToken tok.identifier "if")
                [Fragments.ident "X"]);
      reflexivity.
  - apply (Pop (loop_entry Fragments.endif (mkToken tok.unknown "")
                  (mkValidator "#if X" [tok.value tok.hash] incomplete))
               Fragments.hash (Fragments.ident "endif") [] []);
      reflexivity.
  - apply (Bad (loop_entry Fragments.endif (mkToken tok.unknown "") fresh)
               Fragments.hash (Fragments.ident "endif") []);
      try reflexivity.
    left. reflexivity.
  - apply Alone. discriminate.
Defined.

(** C5, at the failing input.  [#if X] is [incomplete] on a new
    validator and [#endif] after it is [complete], whatever the locals
    hold.  [#endif] alone on a new validator stops the loop in its
    first turn, so that line 89 reads in [lastSeenToken] what the local
    [token] held at its declaration (line 43), which nothing
    initialises: the verdict is [invalid] when that is no comma, and
    [incomplete], not [invalid], when it reads as a comma. *)
Theorem C5_lone_endif_reads_uninitialised :
  (forall (k : tok.TokenKind) (uninit1 uninit2 : Token),
      let first := validate "#if X" (Fragments.if_X k) uninit1 fresh in
      fst first = incomplete /\
      fst (validate "#endif" Fragments.endif uninit2 (snd first))
      = complete) /\
  (forall uninit : Token,
      validate "#endif" Fragments.endif uninit fresh =
      let res := if tok.eqb (getKind uninit) tok.comma
                 then incomplete else invalid in
      (res, mkValidator "#endif" [] res)) /\
  fst (validate "#endif" Fragments.endif (mkToken tok.comma ",") fresh)
  = incomplete.
Proof.
  split; [|split].
  - intros k uninit1 uninit2 first. subst first.
    rewrite validate_if_X. split; [reflexivity|].
    vm_compute. reflexivity.
  - intros uninit. unfold validate, scan. rewrite do_while_eq.
    rewrite (loop_body_hash (loop_entry Fragments.endif uninit fresh)
               Fragments.hash [Fragments.ident "endif"])
      by reflexivity.
    simpl. unfold verdict, should_continue. simpl.
    rewrite orb_false_r. reflexivity.
  - vm_compute. reflexivity.
Qed.

(* ===================================================================== *)
(** ** Balanced stretches of tokens                                       *)
(* ===================================================================== *)

Lemma closer_value (k : tok.TokenKind) :
  closer k = true -> tok.value k = tok.value (opener_of k) + 1.
Proof. destruct k; simpl; try discriminate; reflexivity. Qed.

Lemma closer_of_value (k : tok.TokenKind) :
  opener k = true ->
  closer (closer_of k) = true /\
  tok.value (closer_of k) = tok.value k + 1 /\
  tok.static_cast (tok.value k) = tok.value k.
Proof. destruct k; simpl; try discriminate; repeat split; reflexivity. Qed.

Lemma plain_balanced (l : list Token) :
  Forall (fun t => plain (getKind t) = true) l -> balanced l.
Proof.
  induction 1; [apply balanced_nil | apply balanced_plain; assumption].
Qed.

Lemma last_cons {A : Type} (a d : A) (l : list A) :
  last (a :: l) d = last l a.
Proof.
  revert a d. induction l as [|b l IH]; intros a d; [reflexivity|].
  change (last (a :: b :: l) d) with (last (b :: l) d).
  rewrite (IH b d), (IH b a). reflexivity.
Qed.

Lemma last_app_cons {A : Type} (a d : A) (l1 l2 : list A) :
  last (l1 ++ a :: l2) d = last l2 a.
Proof.
  revert d. induction l1 as [|b l1 IH]; intros d; simpl app.
  - apply last_cons.
  - rewrite last_cons. apply IH.
Qed.

(** One turn, when the loop goes on after it. *)
Lemma visits_step (s : loop_state) :
  loop_cond (loop_body s) = true -> visits s (loop_body s).
Proof. intros C. apply visits_turn; [apply visits_entry | assumption]. Qed.

(** The loop goes through a balanced stretch and comes out of it with
    the stack and the result it came in with. *)
Lemma scan_balanced (l : list Token) :
  balanced l ->
  forall (s : loop_state) (rest : list Token),
    pp s = l ++ rest -> result s <> invalid -> wf_stack (stack s) ->
    exists s', visits s s' /\ pp s' = rest /\ stack s' = stack s /\
               result s' = result s /\ token s' = last l (token s).
Proof.
  induction 1 as [ | t l Ht Hl IH
                   | o c l1 l2 Ho Hc Hl1 IH1 Hl2 IH2
                   | h d l Hh Hd Hi He Hl IH
                   | h1 d1 h2 d2 l1 l2 Hh1 Hd1 Hi1 Hh2 Hd2 He2 Hl1 IH1 Hl2 IH2 ];
    intros s rest P R W.
  - exists s. repeat split; auto using visits_entry.
  - (* a plain token *)
    apply plain_other in Ht. destruct Ht as (Ho & Hc & Hh & He).
    pose proof (loop_body_other s t (l ++ rest) P Ho Hc Hh) as B.
    assert (C : loop_cond (loop_body s) = true)
      by (rewrite B; apply loop_cond_true; split; assumption).
    destruct (IH (loop_body s) rest) as (s' & V & P' & S' & R' & T');
      try (rewrite B; simpl; auto; fail).
    exists s'. rewrite B in S', R', T'.
    cbn [pp token result stack] in S', R', T'.
    repeat split; auto.
    + apply (visits_trans _ (loop_body s)); [apply visits_step|]; assumption.
    + rewrite last_cons. assumption.
  - (* a pair of brackets *)
    destruct (closer_of_value _ Ho) as (Kc & Vc & Cast).
    cbn [app] in P. rewrite <- app_assoc in P. cbn [app] in P.
    pose proof (loop_body_opener s o _ P Ho) as B1.
    assert (C1 : loop_cond (loop_body s) = true).
    { rewrite B1. apply loop_cond_true. split; [|assumption].
      cbn [token]. destruct (getKind o); simpl in *; discriminate. }
    assert (W1 : wf_stack (stack (loop_body s)))
      by (apply loop_body_keeps_wf; assumption).
    destruct (IH1 (loop_body s) (c :: l2 ++ rest))
      as (s1 & V1 & P1 & S1 & R1 & T1);
      try (rewrite B1; simpl; auto; fail); [assumption|].
    assert (Kc' : closer (getKind c) = true) by (rewrite Hc; assumption).
    pose proof (loop_body_closer s1 c _ P1 Kc') as B2.
    rewrite close_bracket_wf in B2 by (rewrite S1; assumption).
    rewrite B1 in S1, R1, T1. cbn [pp token result stack] in S1, R1, T1.
    rewrite S1 in B2. unfold tos in B2. cbn [empty back hd pop_back tl] in B2.
    rewrite Cast, Hc, Vc, Z.eqb_refl in B2. cbn [fst snd] in B2.
    assert (C2 : loop_cond (loop_body s1) = true).
    { rewrite B2. apply loop_cond_true. cbn [token result].
      split; [|congruence].
      rewrite Hc. destruct (getKind o); simpl in *; discriminate. }
    destruct (IH2 (loop_body s1) rest) as (s2 & V2 & P2 & S2 & R2 & T2);
      try (rewrite B2; cbn [pp token result stack]; auto; congruence).
    rewrite B2 in S2, R2, T2. cbn [pp token result stack] in S2, R2, T2.
    exists s2. repeat split; auto; try congruence.
    + apply (visits_trans _ (loop_body s)); [apply visits_step; assumption|].
      apply (visits_trans _ s1); [assumption|].
      apply (visits_trans _ (loop_body s1)); [apply visits_step|]; assumption.
    + rewrite last_cons, last_app_cons. assumption.
  - (* a directive other than a conditional *)
    cbn [app] in P.
    pose proof (loop_body_hash s h _ P Hh) as B.
    cbn [Lex fst snd] in B. unfold directive in B. rewrite Hi, He in B.
    cbn [fst snd] in B.
    assert (C : loop_cond (loop_body s) = true)
      by (rewrite B; apply loop_cond_true; split; assumption).
    destruct (IH (loop_body s) rest) as (s' & V & P' & S' & R' & T');
      try (rewrite B; simpl; auto; fail).
    rewrite B in S', R', T'. cbn [pp token result stack] in S', R', T'.
    exists s'. repeat split; auto.
    + apply (visits_trans _ (loop_body s)); [apply visits_step|]; assumption.
    + rewrite !last_cons. assumption.
  - (* a conditional *)
    cbn [app] in P. rewrite <- app_assoc in P. cbn [app] in P.
    pose proof (loop_body_hash s h1 _ P Hh1) as B1.
    cbn [Lex fst snd] in B1. unfold directive in B1. rewrite Hi1 in B1.
    cbn [fst snd] in B1.
    assert (C1 : loop_cond (loop_body s) = true)
      by (rewrite B1; apply loop_cond_true; split; assumption).
    assert (W1 : wf_stack (stack (loop_body s)))
      by (apply loop_body_keeps_wf; assumption).
    destruct (IH1 (loop_body s) (h2 :: d2 :: l2 ++ rest))
      as (s1 & V1 & P1 & S1 & R1 & T1);
      try (rewrite B1; simpl; auto; fail); [assumption|].
    rewrite B1 in S1, R1, T1. cbn [pp token result stack] in S1, R1, T1.
    pose proof (loop_body_hash s1 h2 _ P1 Hh2) as B2.
    cbn [Lex fst snd] in B2. unfold directive in B2.
    rewrite (is_endif_not_if _ He2), He2, S1 in B2.
    cbn [empty back hd pop_back tl orb negb fst snd] in B2.
    rewrite Z.eqb_refl in B2. cbn [negb fst snd] in B2.
    assert (C2 : loop_cond (loop_body s1) = true).
    { rewrite B2. apply loop_cond_true. cbn [token result]. split; congruence. }
    destruct (IH2 (loop_body s1) rest) as (s2 & V2 & P2 & S2 & R2 & T2);
      try (rewrite B2; cbn [pp token result stack]; auto; congruence).
    rewrite B2 in S2, R2, T2. cbn [pp token result stack] in S2, R2, T2.
    exists s2. repeat split; auto; try congruence.
    + apply (visits_trans _ (loop_body s)); [apply visits_step; assumption|].
      apply (visits_trans _ s1); [assumption|].
      apply (visits_trans _ (loop_body s1)); [apply visits_step|]; assumption.
    + rewrite !last_cons, last_app_cons, last_cons. assumption.
Qed.

(** The last turn: the preprocessor has no token left. *)
Lemma do_while_at_end (s : loop_state) :
  pp s = [] ->
  do_while s = mkLoop [] eof_token (token s) (result s) (stack s).
Proof.
  intros P. rewrite do_while_eq, (loop_body_eof s P). reflexivity.
Qed.

Lemma scan_to_end (s0 s : loop_state) :
  visits s0 s -> pp s = [] ->
  do_while s0 = mkLoop [] eof_token (token s) (result s) (stack s).
Proof.
  intros V P. rewrite (visits_do_while s0 s V). apply do_while_at_end, P.
Qed.

Lemma wf_stack_nil : wf_stack [].
Proof. constructor. Qed.

Lemma complete_not_invalid : complete <> invalid.
Proof. discriminate. Qed.

Create HintDb scan.
#[local] Hint Resolve wf_stack_nil complete_not_invalid visits_entry : scan.

(* ===================================================================== *)
(** ** Fragments without brackets                                         *)
(* ===================================================================== *)

(** C2, the claim as stated, fails: [#ifdef X] has no bracket and ends
    with an identifier, and the verdict on a new validator is
    [incomplete], for the conditional it opens. *)
Lemma C2_counterexample :
  let toks := [Fragments.hash; Fragments.ident "ifdef"; Fragments.ident "X"] in
  Forall (fun t => opener (getKind t) = false /\ closer (getKind t) = false)
         toks /\
  getKind (last toks (mkToken tok.unknown "")) <> tok.comma /\
  parenStack fresh = [] /\
  fst (validate "#ifdef X" toks (mkToken tok.unknown "") fresh) = incomplete /\
  fst (validate "#ifdef X" toks (mkToken tok.unknown "") fresh) <> complete.
Proof.
  repeat split; try (vm_compute; reflexivity); try discriminate.
  repeat constructor.
Qed.

(** C2, amended.  For every fragment whose tokens are neither brackets
    nor [#] and whose last token is not a comma, [validate], called
    with an empty stack, returns [complete] and leaves the stack empty.
    For a fragment without any token the token in question is what the
    local [token] held before the loop. *)
Theorem C2_plain_fragment_complete
    (code : string) (toks : list Token) (uninit : Token)
    (v : input_validator) :
  Forall (fun t => plain (getKind t) = true) toks ->
  parenStack v = [] ->
  getKind (last toks uninit) <> tok.comma ->
  validate code toks uninit v =
  (complete, mkValidator (accumulate (input v) code) [] complete).
Proof.
  intros Hp Hs Hc.
  destruct (scan_balanced toks (plain_balanced _ Hp)
              (loop_entry toks uninit v) [])
    as (s & V & P & S & R & T); simpl;
    try rewrite Hs; auto using app_nil_r with scan.
  unfold validate, scan. rewrite (scan_to_end _ s V P).
  simpl in S, R, T. rewrite S, R, T, Hs.
  unfold verdict, should_continue. simpl.
  apply tok_eqb_neq in Hc. rewrite Hc. reflexivity.
Qed.

Lemma C2_plain_fragment_complete_witness :
  validate "x;" Fragments.x_semi (mkToken tok.unknown "") fresh =
  (complete, mkValidator "x;" [] complete).
Proof.
  apply (C2_plain_fragment_complete "x;" Fragments.x_semi
           (mkToken tok.unknown "") fresh).
  - repeat constructor.
  - reflexivity.
  - simpl. discriminate.
Defined.

(* ===================================================================== *)
(** ** An opening bracket left open                                       *)
(* ===================================================================== *)

Lemma opener_of_closer_of (k : tok.TokenKind) :
  opener k = true -> opener_of (closer_of k) = k.
Proof. destruct k; simpl; try discriminate; reflexivity. Qed.

(** A call whose fragment is one closing bracket, made with its opening
    bracket alone on the stack. *)
Lemma validate_closer_alone
    (code : string) (c : Token) (uninit : Token) (v : input_validator) :
  closer (getKind c) = true ->
  parenStack v = [tok.value (opener_of (getKind c))] ->
  validate code [c] uninit v =
  (complete, mkValidator (accumulate (input v) code) [] complete).
Proof.
  intros Kc Hs.
  assert (B : loop_body (loop_entry [c] uninit v) =
              mkLoop [] c uninit complete []).
  { rewrite (loop_body_closer (loop_entry [c] uninit v) c [] eq_refl Kc).
    cbn [loop_entry token result stack]. rewrite Hs.
    destruct (getKind c); simpl in Kc; try discriminate; reflexivity. }
  assert (C : loop_cond (mkLoop [] c uninit complete []) = true).
  { apply loop_cond_true. cbn [token result]. split; [|discriminate].
    destruct (getKind c); simpl in Kc; discriminate. }
  unfold validate, scan.
  rewrite do_while_eq, B, C, do_while_at_end by reflexivity.
  unfold verdict, should_continue. cbn [lastSeenToken token result stack].
  assert (N : tok.eqb (getKind c) tok.comma = false)
    by (destruct (getKind c); simpl in Kc; try discriminate; reflexivity).
  rewrite N. reflexivity.
Qed.


(* ===================================================================== *)
(** ** A closing bracket that closes nothing                              *)
(* ===================================================================== *)

(** C1, the claim as stated, fails: in [x,)] the closing parenthesis
    comes with the stack empty, and the verdict is [incomplete], for
    the comma before it. *)
Lemma C1_counterexample :
  let toks := [Fragments.ident "x"; Fragments.comma; Fragments.r_paren] in
  let s0 := loop_entry toks (mkToken tok.unknown "") fresh in
  visits s0 (turns 2 s0) /\
  pp (turns 2 s0) = [Fragments.r_paren] /\
  stack (turns 2 s0) = [] /\
  fst (validate "x,)" toks (mkToken tok.unknown "") fresh) = incomplete /\
  fst (validate "x,)" toks (mkToken tok.unknown "") fresh) <> invalid.
Proof.
  repeat split; try (vm_compute; reflexivity); try discriminate.
  simpl turns. apply visits_turn; [apply visits_step|];
    vm_compute; reflexivity.
Qed.

(** At the beginning of a turn other than the first, [token] holds the
    token of the fragment that comes just before those the preprocessor
    has yet to return. *)
Lemma visits_consumed (s0 s : loop_state) :
  visits s0 s ->
  s = s0 \/ exists pre, pp s0 = pre ++ token s :: pp s.
Proof.
  induction 1 as [|s V IH C]; [left; reflexivity|]. right.
  assert (T : exists turn, pp s = turn ++ token (loop_body s)
                                        :: pp (loop_body s)).
  { apply loop_cond_true in C. destruct C as [E _].
    destruct (pp s) as [|t rest] eqn:P.
    { rewrite (loop_body_eof s P) in E. contradiction. }
    destruct (tok.eqb (getKind t) tok.hash) eqn:Hh.
    - apply tok_eqb_eq in Hh.
      rewrite (loop_body_hash s t rest P Hh) in E |- *.
      cbn [token pp] in E |- *.
      destruct rest as [|d rest]; [contradiction|].
      exists [t]. reflexivity.
    - apply tok_eqb_neq in Hh. exists [].
      destruct (opener (getKind t)) eqn:Ho;
        [rewrite (loop_body_opener s t rest P Ho); reflexivity|].
      destruct (closer (getKind t)) eqn:Hc;
        [rewrite (loop_body_closer s t rest P Hc); reflexivity|].
      rewrite (loop_body_other s t rest P Ho Hc Hh). reflexivity. }
  destruct T as [turn T].
  destruct IH as [-> | [pre E]].
  - exists turn. assumption.
  - exists (pre ++ token s :: turn).
    rewrite E, T, <- app_assoc. reflexivity.
Qed.

(** C1, amended.  Let the loop of a call of [validate] begin a turn in
    which it lexes a closing bracket [c] while the top of the stack,
    taken as [tok::unknown] for an empty stack, is not the opening
    bracket of [c].  Then the scan ends in that turn with the result
    [invalid] and the stack unchanged, and the verdict is read off the
    local [token] as that turn finds it: [incomplete] when it holds a
    comma, [invalid] otherwise.  When a token comes before [c] in the
    fragment, [token] holds that token: [validate] returns [invalid]
    unless the token just before the closing bracket is a comma, and
    [incomplete] when it is.  When [c] is the first token lexed,
    [token] holds what its declaration left in it. *)
Theorem C1_unmatched_closer
    (code : string) (toks : list Token) (uninit : Token)
    (v : input_validator) (s : loop_state) (c : Token) (rest : list Token) :
  visits (loop_entry toks uninit v) s ->
  pp s = c :: rest ->
  closer (getKind c) = true ->
  tos (stack s) <> tok.value (opener_of (getKind c)) ->
  result (scan toks uninit v) = invalid /\
  parenStack (snd (validate code toks uninit v)) = stack s /\
  fst (validate code toks uninit v) =
  (if tok.eqb (getKind (token s)) tok.comma then incomplete else invalid) /\
  ((toks = c :: rest /\ token s = uninit) \/
   (exists pre, toks = pre ++ token s :: c :: rest)).
Proof.
  intros V P Kc M.
  assert (B : loop_body s = mkLoop rest c (token s) invalid (stack s)).
  { rewrite (loop_body_closer s c rest P Kc). unfold close_bracket.
    rewrite (closer_value _ Kc).
    assert (E : (tok.value (opener_of (getKind c)) + 1 =? tos (stack s) + 1)
                = false) by (apply Z.eqb_neq; lia).
    rewrite E. reflexivity. }
  assert (F : scan toks uninit v = mkLoop rest c (token s) invalid (stack s)).
  { unfold scan. rewrite (visits_do_while _ s V), do_while_eq, B.
    unfold loop_cond. cbn [result ValidationResult_eqb negb].
    rewrite andb_false_r. reflexivity. }
  unfold validate. rewrite F. cbn [fst snd parenStack result stack].
  split; [reflexivity|]. split; [reflexivity|]. split.
  - unfold verdict, should_continue.
    cbn [lastSeenToken result stack ValidationResult_eqb negb].
    rewrite andb_false_r, orb_false_r. reflexivity.
  - destruct (visits_consumed _ _ V) as [-> | [pre E]].
    + left. split; [exact P | reflexivity].
    + right. exists pre. cbn [loop_entry pp] in E. rewrite E, P. reflexivity.
Qed.

Lemma C1_unmatched_closer_witness :
  let toks := [Fragments.ident "x"; Fragments.r_paren; Fragments.comma] in
  fst (validate "x)," toks (mkToken tok.unknown "") fresh) = invalid /\
  exists pre, toks = pre ++ Fragments.ident "x" :: Fragments.r_paren
                         :: [Fragments.comma].
Proof.
  destruct (C1_unmatched_closer "x),"
              [Fragments.ident "x"; Fragments.r_paren; Fragments.comma]
              (mkToken tok.unknown "") fresh
              (mkLoop [Fragments.r_paren; Fragments.comma]
                      (Fragments.ident "x")
                      (mkToken tok.unknown "") complete [])
              Fragments.r_paren [Fragments.comma])
    as (_ & _ & Verdict & Before).
  - apply (visits_step
             (loop_entry
                [Fragments.ident "x"; Fragments.r_paren; Fragments.comma]
                (mkToken tok.unknown "") fresh)).
    reflexivity.
  - reflexivity.
  - reflexivity.
  - discriminate.
  - split; [exact Verdict|].
    destruct Before as [[E _] | Pre]; [discriminate E | exact Pre].
Defined.

(* ===================================================================== *)
(** ** A comma at the end of the fragment                                 *)
(* ===================================================================== *)

(** Each turn copies [token] into [lastSeenToken] before it lexes. *)
Lemma loop_body_lastSeen (s : loop_state) :
  lastSeenToken (loop_body s) = token s.
Proof.
  unfold loop_body. destruct (Lex (pp s)) as [tk pp1].
  destruct (getKind tk);
    try reflexivity;
    try (destruct (close_bracket _ _ _); reflexivity).
  destruct (Lex pp1) as [tk2 pp2]. destruct (directive _ _ _). reflexivity.
Qed.

(** What a turn takes from the preprocessor and leaves in [token]: one
    token, or two when the first is a [#]. *)
Lemma loop_body_lexes (s : loop_state) (t : Token) (rest : list Token) :
  pp s = t :: rest ->
  (getKind t <> tok.hash /\
   pp (loop_body s) = rest /\ token (loop_body s) = t) \/
  (getKind t = tok.hash /\
   pp (loop_body s) = snd (Lex rest) /\ token (loop_body s) = fst (Lex rest)).
Proof.
  intros P.
  destruct (tok.eqb (getKind t) tok.hash) eqn:Hh.
  - apply tok_eqb_eq in Hh. right.
    rewrite (loop_body_hash s t rest P Hh). auto.
  - apply tok_eqb_neq in Hh. left. split; [assumption|].
    destruct (opener (getKind t)) eqn:Ho;
      [rewrite (loop_body_opener s t rest P Ho); auto|].
    destruct (closer (getKind t)) eqn:Hc;
      [rewrite (loop_body_closer s t rest P Hc); auto|].
    rewrite (loop_body_other s t rest P Ho Hc Hh). auto.
Qed.

Lemma heads_for_turn (c : Token) (s : loop_state) :
  getKind c <> tok.eof -> getKind c <> tok.hash ->
  heads_for c s ->
  (pp s = [] /\ token s = c) \/
  (getKind (token (loop_body s)) <> tok.eof /\ heads_for c (loop_body s)).
Proof.
  intros Ne Nh [(l & P & F) | E]; [right | left; assumption].
  destruct l as [|t l]; cbn [app] in P.
  - destruct (loop_body_lexes s c [] P) as [(_ & P' & T') | (K & _)];
      [|contradiction].
    rewrite T'. split; [assumption|]. right. split; assumption.
  - inversion F as [|t' l' Ft Fl]; subst t' l'.
    destruct (loop_body_lexes s t (l ++ [c]) P)
      as [(_ & P' & T') | (K & P' & T')].
    + rewrite T'. split; [assumption|]. left. exists l. split; assumption.
    + destruct l as [|d l]; cbn [app Lex fst snd] in P', T'.
      * rewrite T'. split; [assumption|]. right. split; assumption.
      * inversion Fl as [|d' l' Fd Fl']; subst d' l'.
        rewrite T'. split; [assumption|]. left. exists l. split; assumption.
Qed.

(** When the scan of such a fragment does not end on [invalid], it ends
    with [c] in [lastSeenToken]. *)
Lemma scan_last_seen (c : Token) :
  getKind c <> tok.eof -> getKind c <> tok.hash ->
  forall s : loop_state,
    heads_for c s -> result (do_while s) <> invalid ->
    lastSeenToken (do_while s) = c.
Proof.
  intros Ne Nh.
  apply (loop_ind (fun s r => heads_for c s -> result r <> invalid ->
                              lastSeenToken r = c)).
  - intros s C IH H R.
    destruct (heads_for_turn c s Ne Nh H) as [(P & _) | (_ & H')].
    + rewrite (loop_body_eof s P) in C. discriminate.
    + apply IH; assumption.
  - intros s C H R.
    destruct (heads_for_turn c s Ne Nh H) as [(_ & T) | (E & _)].
    + rewrite loop_body_lastSeen. assumption.
    + apply loop_cond_false in C. destruct C; contradiction.
Qed.

(** C4, the claim as stated, fails: [x),] ends with a comma, and the
    verdict on a new validator is [invalid]; the scan stops at the
    closing parenthesis and never comes to the comma. *)
Lemma C4_counterexample :
  let toks := [Fragments.ident "x"; Fragments.r_paren; Fragments.comma] in
  getKind (last toks (mkToken tok.unknown "")) = tok.comma /\
  fst (validate "x)," toks (mkToken tok.unknown "") fresh) = invalid /\
  fst (validate "x)," toks (mkToken tok.unknown "") fresh) <> incomplete.
Proof.
  repeat split; try (vm_compute; reflexivity); discriminate.
Qed.

(** C4, amended.  Whenever the loop stops with a comma in
    [lastSeenToken], [validate] returns [incomplete], whatever the stack
    and the result of the scan are.  This is so for every fragment
    whose last token is a comma and whose scan does not end on
    [invalid] (no closing bracket and no [#endif] is refused before the
    comma): [validate] returns [incomplete] for it, whatever the stack
    holds at the end of the input, an empty stack included.
    [foo(1, 2,] is [incomplete] on a new validator, and [3)] after it
    is [complete]. *)
Theorem C4_trailing_comma :
  (forall (code : string) (toks : list Token) (uninit : Token)
          (v : input_validator),
      getKind (lastSeenToken (scan toks uninit v)) = tok.comma ->
      fst (validate code toks uninit v) = incomplete) /\
  (forall (code : string) (pre : list Token) (c uninit : Token)
          (v : input_validator),
      getKind c = tok.comma ->
      Forall (fun t => getKind t <> tok.eof) pre ->
      result (scan (pre ++ [c]) uninit v) <> invalid ->
      fst (validate code (pre ++ [c]) uninit v) = incomplete) /\
  (forall uninit1 uninit2 : Token,
      let first := validate "foo(1, 2," Fragments.call_open uninit1 fresh in
      fst first = incomplete /\
      fst (validate "3)" Fragments.call_close uninit2 (snd first))
      = complete).
Proof.
  split; [|split].
  - intros code toks uninit v K.
    unfold validate, verdict, should_continue. cbn [fst].
    rewrite K. reflexivity.
  - intros code pre c uninit v K F R.
    unfold validate, verdict, should_continue. cbn [fst].
    unfold scan in *.
    rewrite (scan_last_seen c) ; try assumption.
    + rewrite K. reflexivity.
    + rewrite K. discriminate.
    + rewrite K. discriminate.
    + left. exists pre. split; [reflexivity | assumption].
  - intros uninit1 uninit2. split; vm_compute; reflexivity.
Qed.

Lemma C4_trailing_comma_witness :
  let u := mkToken tok.unknown "" in
  let f1 := [Fragments.ident "f"; Fragments.l_paren; Fragments.number "1";
             Fragments.r_paren] in
  fst (validate "f(1)," (f1 ++ [Fragments.comma]) u fresh) = incomplete /\
  parenStack (snd (validate "f(1)," (f1 ++ [Fragments.comma]) u fresh)) = [] /\
  fst (validate "x,)" [Fragments.ident "x"; Fragments.comma; Fragments.r_paren]
                u fresh) = incomplete.
Proof.
  destruct C4_trailing_comma as (Seen & Last & _).
  split; [|split].
  - apply (Last "f(1),"
             [Fragments.ident "f"; Fragments.l_paren;
              Fragments.number "1"; Fragments.r_paren]
             Fragments.comma (mkToken tok.unknown "") fresh).
    + reflexivity.
    + repeat constructor; discriminate.
    + vm_compute. discriminate.
  - vm_compute. reflexivity.
  - apply (Seen "x,)"
             [Fragments.ident "x"; Fragments.comma; Fragments.r_paren]
             (mkToken tok.unknown "") fresh).
    vm_compute. reflexivity.
Defined.

(* ===================================================================== *)
(** ** The depth of the stack                                             *)
(* ===================================================================== *)

Lemma marker_cast (z : Z) : marker z -> tok.static_cast z = z.
Proof.
  unfold marker. intros [-> | [-> | [-> | ->]]]; reflexivity.
Qed.

(** The effect of a turn on a stack of markers. *)
Lemma loop_body_stack (s : loop_state) :
  wf_stack (stack s) ->
  stack (loop_body s) =
  if sees_opening s
  then tok.value (getKind (fst (Lex (pp s)))) :: stack s
  else if sees_matching_closing s then pop_back (stack s)
  else stack s.
Proof.
  intros W. unfold sees_opening, sees_matching_closing.
  destruct (pp s) as [|t rest] eqn:P.
  - rewrite (loop_body_eof s P). cbn [Lex stack]. simpl.
    destruct (stack s); reflexivity.
  - cbn [Lex fst].
    destruct (opener (getKind t)) eqn:Ho.
    { rewrite (loop_body_opener s t rest P Ho). reflexivity. }
    destruct (closer (getKind t)) eqn:Hc.
    { rewrite (loop_body_closer s t rest P Hc), close_bracket_wf by assumption.
      assert (Hh : tok.eqb (getKind t) tok.hash = false)
        by (destruct (getKind t); simpl in Hc; try discriminate; reflexivity).
      rewrite Hh. cbn [orb andb]. rewrite (closer_value _ Hc).
      unfold tos. destruct W as [|top stk Mt _]; cbn [empty back hd].
      - replace (tok.value (opener_of (getKind t)) + 1 =? tok.value tok.unknown + 1)
          with false; [reflexivity|].
        symmetry. apply Z.eqb_neq.
        destruct (getKind t); simpl in Hc; try discriminate; simpl; lia.
      - rewrite (marker_cast _ Mt), orb_false_r.
        replace (tok.value (opener_of (getKind t)) + 1 =? top + 1)
          with (top =? tok.value (opener_of (getKind t))).
        + destruct (top =? _); reflexivity.
        + destruct (Z.eqb_spec top (tok.value (opener_of (getKind t))));
            symmetry; [apply Z.eqb_eq | apply Z.eqb_neq]; lia. }
    destruct (tok.eqb (getKind t) tok.hash) eqn:Hh.
    { apply tok_eqb_eq in Hh.
      rewrite (loop_body_hash s t rest P Hh). cbn [stack orb andb].
      unfold directive.
      destruct (startswith "if" (tokenText (fst (Lex rest)))) eqn:Hi.
      - rewrite Hh. reflexivity.
      - destruct (is_endif (tokenText (fst (Lex rest)))) eqn:He.
        + destruct (stack s) as [|top stk]; cbn [empty back hd orb snd].
          * reflexivity.
          * destruct (top =? tok.value tok.hash); reflexivity.
        + cbn [snd]. destruct (stack s); reflexivity. }
    apply tok_eqb_neq in Hh.
    rewrite (loop_body_other s t rest P Ho Hc Hh). cbn [stack orb andb].
    destruct (stack s); reflexivity.
Qed.

(** No turn sees both. *)
Lemma sees_exclusive (s : loop_state) :
  sees_opening s = true -> sees_matching_closing s = false.
Proof.
  unfold sees_opening, sees_matching_closing.
  destruct (Lex (pp s)) as [tk pp1]. intros H.
  destruct (stack s) as [|top stk]; [reflexivity|].
  apply orb_true_iff in H. destruct H as [H|H].
  - assert (closer (getKind tk) = false /\ tok.eqb (getKind tk) tok.hash = false)
      as [-> ->]
      by (destruct (getKind tk); simpl in H; try discriminate; split;
          reflexivity).
    reflexivity.
  - apply andb_true_iff in H. destruct H as [Hh Hi].
    assert (closer (getKind tk) = false) as ->
      by (apply tok_eqb_eq in Hh; rewrite Hh; reflexivity).
    destruct (is_endif _) eqn:He.
    + rewrite (is_endif_not_if _ He) in Hi. discriminate.
    + rewrite andb_false_r. reflexivity.
Qed.

Lemma sees_matching_closing_nonempty (s : loop_state) :
  sees_matching_closing s = true -> stack s <> [].
Proof.
  unfold sees_matching_closing. destruct (Lex (pp s)).
  destruct (stack s); [discriminate | discriminate].
Qed.

(** The depth of the stack, turn by turn, in a call of [validate] made
    in a state that the validator can reach. *)
Lemma depth_by_turn
    (v : input_validator) (toks : list Token) (uninit : Token) (n : nat) :
  reachable v ->
  let s0 := loop_entry toks uninit v in
  let s := turns n s0 in
  (sees_opening s = true <->
   List.length (stack (loop_body s)) = S (List.length (stack s))) /\
  (sees_opening s = true -> pop_back (stack (loop_body s)) = stack s) /\
  (sees_matching_closing s = true <->
   S (List.length (stack (loop_body s))) = List.length (stack s)) /\
  (sees_matching_closing s = true ->
   stack (loop_body s) = pop_back (stack s)) /\
  (sees_opening s = false -> sees_matching_closing s = false ->
   stack (loop_body s) = stack s) /\
  (List.length (stack s) + closed n s0
   = List.length (parenStack v) + opened n s0)%nat.
Proof.
  intros Hv s0 s.
  assert (W0 : wf_stack (stack s0)) by (apply reachable_wf; assumption).
  assert (Step : forall m,
             let t := turns m s0 in
             (List.length (stack (loop_body t))
              + (if sees_matching_closing t then 1 else 0)
              = List.length (stack t)
                + (if sees_opening t then 1 else 0))%nat).
  { intros m t.
    rewrite (loop_body_stack t) by (apply turns_keep_wf; assumption).
    destruct (sees_opening t) eqn:O.
    - rewrite (sees_exclusive t O). simpl. lia.
    - destruct (sees_matching_closing t) eqn:C; [|lia].
      apply sees_matching_closing_nonempty in C.
      destruct (stack t); [contradiction | simpl; lia]. }
  assert (B := loop_body_stack s (turns_keep_wf n s0 W0)).
  pose proof (Step n) as Sn. cbv zeta in Sn. fold s in Sn.
  repeat split.
  - intros O. rewrite B, O. reflexivity.
  - intros L. destruct (sees_opening s); [reflexivity|].
    destruct (sees_matching_closing s); lia.
  - intros O. rewrite B, O. reflexivity.
  - intros C. rewrite C in Sn.
    destruct (sees_opening s) eqn:O; [|lia].
    rewrite (sees_exclusive s O) in C. discriminate.
  - intros L. destruct (sees_matching_closing s); [reflexivity|].
    destruct (sees_opening s); lia.
  - intros C. rewrite B, C.
    destruct (sees_opening s) eqn:O; [|reflexivity].
    rewrite (sees_exclusive s O) in C. discriminate.
  - intros O C. rewrite B, O, C. reflexivity.
  - subst s. clear B Sn. induction n as [|n IH].
    + simpl. lia.
    + pose proof (Step n) as Sn. cbv zeta in Sn. simpl turns.
      simpl opened. simpl closed. lia.
Qed.


(** Without [#] among the tokens, and as long as no closing bracket is
    refused, the loop lexes one token in each turn and the stack is the
    stack of the opening brackets left unmatched. *)
Lemma scan_open_brackets (l : list Token) :
  forall (s : loop_state) (rest : list Token),
    pp s = l ++ rest ->
    Forall (fun t => getKind t <> tok.hash /\ getKind t <> tok.eof) l ->
    wf_stack (stack s) ->
    result s <> invalid ->
    result (do_while s) <> invalid ->
    exists s', visits s s' /\ pp s' = rest /\
               stack s' = open_brackets l (stack s).
Proof.
  induction l as [|t l IH]; intros s rest P F W R I.
  { exists s. repeat split; auto using visits_entry. }
  cbn [app] in P. inversion F as [|t0 l0 [Hh He] Fl]; subst t0 l0.
  assert (Next : forall stk,
             loop_body s = mkLoop (l ++ rest) t (token s) (result s) stk ->
             wf_stack stk ->
             exists s', visits s s' /\ pp s' = rest /\
                        stack s' = open_brackets l stk).
  { intros stk B Wk.
    assert (C : loop_cond (loop_body s) = true)
      by (rewrite B; apply loop_cond_true; split; assumption).
    rewrite do_while_eq, C in I.
    assert (Pb : pp (loop_body s) = l ++ rest) by (rewrite B; reflexivity).
    assert (Wb : wf_stack (stack (loop_body s))) by (rewrite B; exact Wk).
    assert (Rb : result (loop_body s) <> invalid) by (rewrite B; exact R).
    destruct (IH (loop_body s) rest Pb Fl Wb Rb I) as (s' & V & P' & S').
    exists s'. rewrite B in S'. cbn [stack] in S'.
    repeat split; try assumption.
    apply (visits_trans _ (loop_body s)); [apply visits_step|]; assumption. }
  cbn [open_brackets].
  destruct (opener (getKind t)) eqn:Ho.
  { apply Next; [apply (loop_body_opener s t _ P Ho)|].
    constructor; [|assumption].
    unfold marker. destruct (getKind t); simpl in Ho; try discriminate; tauto. }
  destruct (closer (getKind t)) eqn:Hc.
  2:{ apply Next; [apply (loop_body_other s t _ P Ho Hc Hh) | assumption]. }
  pose proof (loop_body_closer s t _ P Hc) as B.
  rewrite close_bracket_wf in B by assumption.
  rewrite (closer_value _ Hc) in B. unfold tos in B.
  assert (Refused : loop_body s
                    = mkLoop (l ++ rest) t (token s) invalid (stack s) ->
                    False).
  { intros B'. rewrite do_while_eq, B' in I. unfold loop_cond in I.
    cbn [result ValidationResult_eqb negb] in I.
    rewrite andb_false_r in I. cbn [result] in I. contradiction. }
  destruct W as [|top stk Mt Wk]; cbn [empty back hd pop_back tl] in B.
  - exfalso. apply Refused. rewrite B.
    replace (tok.value (opener_of (getKind t)) + 1 =? tok.value tok.unknown + 1)
      with false; [reflexivity|].
    symmetry. apply Z.eqb_neq.
    destruct (getKind t); simpl in Hc; try discriminate; simpl; lia.
  - rewrite (marker_cast _ Mt) in B.
    destruct (Z.eqb_spec top (tok.value (opener_of (getKind t)))) as [E|E].
    + apply Next; [|assumption]. rewrite B.
      replace (tok.value (opener_of (getKind t)) + 1 =? top + 1) with true
        by (symmetry; apply Z.eqb_eq; lia).
      reflexivity.
    + exfalso. apply Refused. rewrite B.
      replace (tok.value (opener_of (getKind t)) + 1 =? top + 1) with false
        by (symmetry; apply Z.eqb_neq; lia).
      reflexivity.
Qed.




(* ===================================================================== *)
(** ** The text collected over a turn                                     *)
(* ===================================================================== *)

Lemma append_assoc (a b c : string) :
  ((a ++ b) ++ c = a ++ b ++ c)%string.
Proof.
  induction a as [|x a IH]; simpl; [reflexivity|].
  rewrite IH. reflexivity.
Qed.

Lemma append_empty_r (a : string) : (a ++ "" = a)%string.
Proof.
  induction a as [|x a IH]; simpl; [reflexivity|].
  rewrite IH. reflexivity.
Qed.

Lemma accumulate_nonempty (buffer code : string) :
  string_empty buffer = false ->
  accumulate buffer code = (buffer ++ newline ++ code)%string /\
  string_empty (accumulate buffer code) = false.
Proof.
  intros H. unfold accumulate. rewrite H. simpl negb. cbv iota.
  rewrite append_assoc. split; [reflexivity|].
  destruct buffer; [discriminate | reflexivity].
Qed.

Lemma accumulate_all_nonempty (fragments : list string) (buffer : string) :
  string_empty buffer = false ->
  fold_left accumulate fragments buffer
  = (buffer ++ lines_after fragments)%string.
Proof.
  revert buffer. induction fragments as [|f rest IH]; intros buffer H.
  - simpl. rewrite append_empty_r. reflexivity.
  - destruct (accumulate_nonempty buffer f H) as [E N].
    simpl fold_left. rewrite (IH _ N), E, !append_assoc. reflexivity.
Qed.

Lemma newline_joined_cons (f : string) (rest : list string) :
  newline_joined (f :: rest) = (f ++ lines_after rest)%string.
Proof.
  unfold newline_joined. revert f.
  induction rest as [|g rest IH]; intros f.
  - simpl. rewrite append_empty_r. reflexivity.
  - change (String.concat newline (f :: g :: rest))
      with (f ++ newline ++ String.concat newline (g :: rest))%string.
    rewrite IH. reflexivity.
Qed.

Lemma accumulate_all (fragments : list string) :
  fold_left accumulate fragments ""
  = newline_joined (drop_leading_empty fragments).
Proof.
  induction fragments as [|f rest IH]; [reflexivity|].
  destruct f as [|x f].
  - simpl. exact IH.
  - cbn [drop_leading_empty fold_left].
    change (accumulate "" (String x f)) with (String x f).
    rewrite accumulate_all_nonempty by reflexivity.
    rewrite newline_joined_cons. reflexivity.
Qed.

Lemma input_validate_calls (calls : list call) (v : input_validator) :
  input (validate_calls calls v)
  = fold_left accumulate (map call_code calls) (input v).
Proof.
  revert v. induction calls as [|c calls IH]; intros v; [reflexivity|].
  unfold validate_calls in *. simpl. rewrite IH. reflexivity.
Qed.

(** C8, the claim as stated, fails: after an empty fragment and the
    fragment [x;], [reset] hands back [x;], without the newline that
    joins the two fragments. *)
Lemma C8_counterexample :
  let calls := [mkCall "" [] (mkToken tok.unknown "");
                mkCall "x;" Fragments.x_semi (mkToken tok.unknown "")] in
  reset (Some "") (validate_calls calls fresh) = Some (Some "x;", fresh) /\
  newline_joined (map call_code calls) = (newline ++ "x;")%string /\
  "x;" <> newline_joined (map call_code calls).
Proof.
  repeat split; try (vm_compute; reflexivity).
  vm_compute. discriminate.
Qed.

(** C8, amended.  Whatever its verdict, a call of [validate] appends
    its fragment to the text collected, after a newline exactly when
    that text is not empty.  Therefore the text that [reset] moves into
    its argument is the newline-joined concatenation of the fragments
    passed since the previous [reset], from the first fragment that is
    not empty: the empty fragments passed while the text was still
    empty leave no newline. *)
Theorem C8_buffer_round_trip :
  (forall (code : string) (toks : list Token) (uninit : Token)
          (v : input_validator),
      input (snd (validate code toks uninit v)) =
      if string_empty (input v) then code
      else (input v ++ newline ++ code)%string) /\
  (forall (calls : list call) (arg out0 : option string)
          (v0 v : input_validator),
      reset arg v0 = Some (out0, v) ->
      reset (Some "") (validate_calls calls v) =
      Some (Some (newline_joined (drop_leading_empty (map call_code calls))),
            fresh)).
Proof.
  split.
  - intros code toks uninit v. cbn [validate snd input].
    destruct (string_empty (input v)) eqn:E.
    + unfold accumulate. rewrite E. destruct (input v); [|discriminate].
      reflexivity.
    + apply accumulate_nonempty. assumption.
  - intros calls arg out0 v0 v R.
    apply reset_fresh in R. subst v.
    unfold reset. cbn [string_empty].
    rewrite input_validate_calls, accumulate_all. reflexivity.
Qed.

Lemma C8_buffer_round_trip_witness :
  let calls := [mkCall "foo(1, 2," Fragments.call_open (mkToken tok.unknown "");
                mkCall "3)" Fragments.call_close (mkToken tok.unknown "")] in
  reset None (validate_calls [mkCall "x;" Fragments.x_semi
                                (mkToken tok.unknown "")] fresh)
  = Some (None, fresh) /\
  reset (Some "") (validate_calls calls fresh) =
  Some (Some ("foo(1, 2," ++ newline ++ "3)")%string, fresh).
Proof.
  split; [reflexivity|].
  apply (proj2 C8_buffer_round_trip
           [mkCall "foo(1, 2," Fragments.call_open (mkToken tok.unknown "");
            mkCall "3)" Fragments.call_close (mkToken tok.unknown "")]
           None None
           (validate_calls [mkCall "x;" Fragments.x_semi
                              (mkToken tok.unknown "")] fresh)
           fresh).
  reflexivity.
Defined.

(* ===================================================================== *)
(** ** The helper [rightClosesLeftBrace]                                  *)
(* ===================================================================== *)

(** X1.  [rightClosesLeftBrace] holds exactly when the token is a closing
    bracket and the kind given is the kind of its opening bracket: no
    other kind has the value just below the one of a closing bracket. *)
Theorem rightClosesLeftBrace_spec (r : Token) (l : tok.TokenKind) :
  rightClosesLeftBrace r l = true <->
  closer (getKind r) = true /\ l = opener_of (getKind r).
Proof.
  unfold rightClosesLeftBrace. split.
  - intros H.
    assert (C : closer (getKind r) = true)
      by (destruct (getKind r); try discriminate; reflexivity).
    split; [assumption|].
    apply tok_value_inj. pose proof (closer_value _ C) as V.
    destruct (getKind r); try discriminate;
      apply Z.eqb_eq in H; lia.
  - intros [C ->].
    destruct (getKind r); simpl in C; try discriminate; reflexivity.
Qed.

(** X2.  On a stack of markers the test that [validate] makes on a closing
    bracket (lines 57-59) is the test of [rightClosesLeftBrace] on the
    kind on top of the stack: the bracket is popped when the helper
    holds and refused when it does not. *)
Theorem close_bracket_rightClosesLeftBrace
    (c : Token) (l : tok.TokenKind) (res : ValidationResult)
    (stk : list Z) :
  closer (getKind c) = true ->
  wf_stack (tok.value l :: stk) ->
  close_bracket (getKind c) res (tok.value l :: stk) =
  if rightClosesLeftBrace c l then (res, stk)
  else (invalid, tok.value l :: stk).
Proof.
  intros C W. rewrite close_bracket_wf by assumption.
  unfold tos. cbn [empty back hd pop_back tl].
  inversion W as [|z stk' M _]; subst.
  rewrite (marker_cast _ M).
  unfold rightClosesLeftBrace.
  destruct (getKind c); simpl in C; try discriminate; reflexivity.
Qed.

Lemma close_bracket_rightClosesLeftBrace_witness :
  close_bracket tok.r_paren complete
    [tok.value tok.l_paren; tok.value tok.l_brace]
  = (complete, [tok.value tok.l_brace]) /\
  close_bracket tok.r_square complete
    [tok.value tok.l_paren; tok.value tok.l_brace]
  = (invalid, [tok.value tok.l_paren; tok.value tok.l_brace]).
Proof.
  split.
  - apply (close_bracket_rightClosesLeftBrace Fragments.r_paren tok.l_paren
             complete [tok.value tok.l_brace]).
    + reflexivity.
    + repeat constructor; unfold marker; simpl; tauto.
  - apply (close_bracket_rightClosesLeftBrace (mkToken tok.r_square "]")
             tok.l_paren complete [tok.value tok.l_brace]).
    + reflexivity.
    + repeat constructor; unfold marker; simpl; tauto.
Defined.

(* ===================================================================== *)
(** ** The verdicts [validate] can return                                 *)
(* ===================================================================== *)

(** A turn keeps the result or makes it [invalid]. *)
Lemma loop_body_result (s : loop_state) :
  result (loop_body s) = result s \/ result (loop_body s) = invalid.
Proof.
  destruct (pp s) as [|t rest] eqn:P.
  - rewrite (loop_body_eof s P). left. reflexivity.
  - destruct (opener (getKind t)) eqn:Ho;
      [rewrite (loop_body_opener s t rest P Ho); left; reflexivity|].
    destruct (closer (getKind t)) eqn:Hc.
    { rewrite (loop_body_closer s t rest P Hc). cbn [result].
      unfold close_bracket.
      destruct (negb _); [right; reflexivity|].
      destruct (template_pop _ _); left; reflexivity. }
    destruct (tok.eqb (getKind t) tok.hash) eqn:Hh.
    { apply tok_eqb_eq in Hh.
      rewrite (loop_body_hash s t rest P Hh). cbn [result].
      unfold directive.
      destruct (startswith "if" _); [left; reflexivity|].
      destruct (is_endif _); [|left; reflexivity].
      destruct (empty (stack s) || _); [right|left]; reflexivity. }
    apply tok_eqb_neq in Hh.
    rewrite (loop_body_other s t rest P Ho Hc Hh). left. reflexivity.
Qed.

Lemma do_while_result (s : loop_state) :
  result (do_while s) = result s \/ result (do_while s) = invalid.
Proof.
  apply (loop_ind (fun s r => result r = result s \/ result r = invalid)).
  - intros s0 _ [IH|IH]; [|right; assumption].
    rewrite IH. apply loop_body_result.
  - intros s0 _. apply loop_body_result.
Qed.

Lemma scan_result (toks : list Token) (uninit : Token) (v : input_validator) :
  result (scan toks uninit v) = complete \/
  result (scan toks uninit v) = invalid.
Proof. apply (do_while_result (loop_entry toks uninit v)). Qed.

(** X3.  [validate] never returns the verdict [unknown], and [lastResult]
    never holds it: in every state that a validator can reach,
    [lastResult] is [complete], [incomplete] or [invalid]. *)
Theorem validate_never_unknown :
  (forall (code : string) (toks : list Token) (uninit : Token)
          (v : input_validator),
      fst (validate code toks uninit v) <> unknown) /\
  (forall v : input_validator, reachable v -> lastResult v <> unknown).
Proof.
  assert (V : forall code toks uninit v,
             fst (validate code toks uninit v) <> unknown).
  { intros code toks uninit v. cbn [validate fst]. unfold verdict.
    destruct (should_continue _ || _); [discriminate|].
    destruct (scan_result toks uninit v) as [-> | ->]; discriminate. }
  split; [exact V|].
  induction 1 as [|v code toks uninit Hv IH|v v' code out Hv IH Hr].
  - discriminate.
  - apply (V code toks uninit v).
  - apply reset_fresh in Hr. subst v'. discriminate.
Qed.

Lemma validate_never_unknown_witness :
  let v := snd (validate "x)," [Fragments.ident "x"; Fragments.r_paren;
                                Fragments.comma]
                         (mkToken tok.unknown "") fresh) in
  lastResult v = invalid /\ lastResult v <> unknown.
Proof.
  split; [vm_compute; reflexivity|].
  apply (proj2 validate_never_unknown).
  apply reachable_validate, reachable_fresh.
Defined.

(* ===================================================================== *)
(** ** What the verdict [complete] tells                                  *)
(* ===================================================================== *)

Lemma Forall_tl {A : Type} (P : A -> Prop) (l : list A) :
  Forall P l -> Forall P (tl l).
Proof. intros H. destruct H; [constructor | assumption]. Qed.

(** What is left in the preprocessor after a turn is a tail of what was
    in it before. *)
Lemma loop_body_pp (s : loop_state) :
  pp (loop_body s) = tl (pp s) \/ pp (loop_body s) = tl (tl (pp s)).
Proof.
  destruct (pp s) as [|t rest] eqn:P.
  - rewrite (loop_body_eof s P). left. reflexivity.
  - destruct (loop_body_lexes s t rest P) as [(_ & -> & _) | (_ & -> & _)].
    + left. reflexivity.
    + right. destruct rest; reflexivity.
Qed.

Lemma loop_body_no_eof (s : loop_state) :
  Forall (fun t => getKind t <> tok.eof) (pp s) ->
  Forall (fun t => getKind t <> tok.eof) (pp (loop_body s)).
Proof.
  intros F. destruct (loop_body_pp s) as [-> | ->];
    repeat apply Forall_tl; assumption.
Qed.

(** A scan that does not end on [invalid] has lexed every token. *)
Lemma do_while_consumes_all (s : loop_state) :
  Forall (fun t => getKind t <> tok.eof) (pp s) ->
  result (do_while s) <> invalid ->
  pp (do_while s) = [].
Proof.
  apply (loop_ind (fun s r =>
           Forall (fun t => getKind t <> tok.eof) (pp s) ->
           result r <> invalid -> pp r = [])).
  - intros s0 _ IH F R. apply IH; [apply loop_body_no_eof|]; assumption.
  - intros s0 C F R. apply loop_cond_false in C.
    destruct C as [E|E]; [|contradiction].
    destruct (pp s0) as [|t rest] eqn:P.
    + rewrite (loop_body_eof s0 P). reflexivity.
    + inversion F as [|t' rest' Ft Fr]; subst.
      destruct (loop_body_lexes s0 t rest P)
        as [(_ & _ & T) | (_ & Pp & T)].
      * rewrite T in E. contradiction.
      * destruct rest as [|d rest]; [rewrite Pp; reflexivity|].
        inversion Fr as [|d' rest' Fd _]; subst.
        rewrite T in E. contradiction.
Qed.

(** X4.  When [validate] returns [complete], the scan has lexed every token
    of the fragment without refusing any, the stack it leaves is empty,
    and the last token of the fragment is not a comma. *)
Theorem complete_verdict_sound
    (code : string) (toks : list Token) (uninit : Token)
    (v : input_validator) :
  Forall (fun t => getKind t <> tok.eof) toks ->
  fst (validate code toks uninit v) = complete ->
  parenStack (snd (validate code toks uninit v)) = [] /\
  pp (scan toks uninit v) = [] /\
  result (scan toks uninit v) = complete /\
  getKind (last toks uninit) <> tok.comma.
Proof.
  intros F H. cbn [validate fst snd parenStack] in *.
  unfold verdict in H.
  destruct (should_continue (scan toks uninit v)) eqn:SC;
    [discriminate|].
  cbn [orb] in H.
  destruct (empty (stack (scan toks uninit v))) eqn:E.
  2:{ destruct (scan_result toks uninit v) as [R|R];
        rewrite R in H; discriminate. }
  cbn [negb andb] in H.
  assert (R : result (scan toks uninit v) <> invalid) by congruence.
  repeat split.
  - destruct (stack (scan toks uninit v)); [reflexivity|discriminate].
  - apply do_while_consumes_all; assumption.
  - assumption.
  - intros K. unfold should_continue in SC. apply tok_eqb_neq in SC.
    apply SC. clear SC.
    destruct toks as [|t toks] using rev_ind.
    + (* no token: the loop stops in its first turn *)
      unfold scan. rewrite do_while_at_end by reflexivity. exact K.
    + rewrite last_app_cons in K. cbn [last] in K.
      unfold scan in *.
      rewrite (scan_last_seen t); try assumption.
      * rewrite K. discriminate.
      * rewrite K. discriminate.
      * left. exists toks. split; [reflexivity|].
        apply Forall_app in F. apply F.
Qed.

Lemma complete_verdict_sound_witness :
  let r := validate "Foo<Bar{1,2}>" Fragments.template_init
                    (mkToken tok.unknown "") fresh in
  fst r = complete /\ parenStack (snd r) = [] /\
  pp (scan Fragments.template_init (mkToken tok.unknown "") fresh) = [].
Proof.
  split; [vm_compute; reflexivity|].
  destruct (complete_verdict_sound "Foo<Bar{1,2}>" Fragments.template_init
              (mkToken tok.unknown "") fresh) as (S & P & _).
  - repeat constructor; discriminate.
  - vm_compute. reflexivity.
  - split; assumption.
Defined.

(* ===================================================================== *)
(** ** The length of a scan                                               *)
(* ===================================================================== *)

Lemma turns_shift (n : nat) (s : loop_state) :
  turns n (loop_body s) = loop_body (turns n s).
Proof.
  induction n as [|n IH]; [reflexivity|].
  cbn [turns]. rewrite IH. reflexivity.
Qed.

(** A turn that pushes an entry takes at least one token. *)
Lemma loop_body_potential (s : loop_state) :
  (List.length (stack (loop_body s)) + List.length (pp (loop_body s))
   <= List.length (stack s) + List.length (pp s))%nat.
Proof.
  destruct (pp s) as [|t rest] eqn:P.
  - rewrite (loop_body_eof s P). simpl. lia.
  - destruct (opener (getKind t)) eqn:Ho;
      [rewrite (loop_body_opener s t rest P Ho); simpl; lia|].
    destruct (closer (getKind t)) eqn:Hc.
    { rewrite (loop_body_closer s t rest P Hc). cbn [stack pp].
      unfold close_bracket.
      destruct (negb _); cbn [snd]; [simpl; lia|].
      destruct (template_pop _ _); cbn [snd];
        destruct (stack s) as [|a [|b stk]]; simpl; lia. }
    destruct (tok.eqb (getKind t) tok.hash) eqn:Hh.
    { apply tok_eqb_eq in Hh.
      rewrite (loop_body_hash s t rest P Hh). cbn [stack pp].
      unfold directive.
      destruct rest as [|d rest]; cbn [Lex fst snd tokenText eof_token].
      - simpl. lia.
      - destruct (startswith "if" _); cbn [snd]; [simpl; lia|].
        destruct (is_endif _); cbn [snd]; [|simpl; lia].
        destruct (empty (stack s) || _); cbn [snd];
          destruct (stack s); simpl; lia. }
    apply tok_eqb_neq in Hh.
    rewrite (loop_body_other s t rest P Ho Hc Hh). simpl. lia.
Qed.

Lemma do_while_bounded (s : loop_state) :
  (exists n : nat,
      (n <= List.length (pp s))%nat /\ do_while s = turns (S n) s) /\
  (List.length (stack (do_while s)) + List.length (pp (do_while s))
   <= List.length (stack s) + List.length (pp s))%nat.
Proof.
  split.
  - apply (loop_ind (fun s r => exists n, (n <= List.length (pp s))%nat /\
                                          r = turns (S n) s)).
    + intros s0 C (n & Hn & E).
      exists (S n). split.
      * apply loop_body_consumes in C. lia.
      * rewrite E. cbn [turns]. rewrite !turns_shift. reflexivity.
    + intros s0 _. exists O. split; [lia | reflexivity].
  - apply (loop_ind (fun s r =>
             (List.length (stack r) + List.length (pp r)
              <= List.length (stack s) + List.length (pp s))%nat)).
    + intros s0 _ IH. pose proof (loop_body_potential s0). lia.
    + intros s0 _. apply loop_body_potential.
Qed.

(** X5.  The scan of a fragment of [n] tokens makes at most [n + 1] turns of
    the loop, and the stack it leaves has at most [n] entries more than
    the stack it started with. *)
Theorem scan_bounded
    (toks : list Token) (uninit : Token) (v : input_validator) :
  (exists n : nat,
      (n <= List.length toks)%nat /\
      scan toks uninit v = turns (S n) (loop_entry toks uninit v)) /\
  (List.length (stack (scan toks uninit v))
   <= List.length (parenStack v) + List.length toks)%nat.
Proof.
  destruct (do_while_bounded (loop_entry toks uninit v)) as [N B].
  split; [exact N|].
  unfold scan. cbn [loop_entry stack pp] in B. lia.
Qed.

(* ===================================================================== *)
(** ** Where the result [invalid] comes from                              *)
(* ===================================================================== *)

(** The turn after which the loop is left. *)
Lemma do_while_last_turn (s0 : loop_state) :
  result s0 <> invalid ->
  exists s, visits s0 s /\ do_while s0 = loop_body s /\ result s <> invalid.
Proof.
  apply (loop_ind (fun s0 r => result s0 <> invalid ->
           exists s, visits s0 s /\ r = loop_body s /\ result s <> invalid)).
  - intros s C IH R.
    pose proof (proj1 (loop_cond_true _) C) as [_ R'].
    destruct (IH R') as (s' & V & E & R'').
    exists s'. repeat split; try assumption.
    apply (visits_trans _ (loop_body s)); [apply visits_step|]; assumption.
  - intros s _ R. exists s. repeat split; [apply visits_entry | assumption].
Qed.

(** X6.  Nothing but a closing bracket refused, or an [endif] refused, makes
    the result of a scan [invalid]: the scan then ends with the turn
    that lexes a closing bracket while the top of the stack is not its
    opening bracket, or a [#] and an [endif] while the top of the stack
    is not the marker of a conditional. *)
Theorem invalid_origin
    (toks : list Token) (uninit : Token) (v : input_validator) :
  result (scan toks uninit v) = invalid ->
  exists s : loop_state,
    visits (loop_entry toks uninit v) s /\
    scan toks uninit v = loop_body s /\
    ((exists c rest,
         pp s = c :: rest /\ closer (getKind c) = true /\
         tos (stack s) <> tok.value (opener_of (getKind c))) \/
     (exists h d rest,
         pp s = h :: d :: rest /\ getKind h = tok.hash /\
         is_endif (tokenText d) = true /\
         (stack s = [] \/ back (stack s) <> tok.value tok.hash))).
Proof.
  intros I. unfold scan in *.
  destruct (do_while_last_turn (loop_entry toks uninit v))
    as (s & V & E & R); [discriminate|].
  exists s. split; [assumption|]. split; [assumption|].
  rewrite E in I. clear E V.
  destruct (pp s) as [|t rest] eqn:P.
  { rewrite (loop_body_eof s P) in I. contradiction. }
  destruct (opener (getKind t)) eqn:Ho.
  { rewrite (loop_body_opener s t rest P Ho) in I. contradiction. }
  destruct (closer (getKind t)) eqn:Hc.
  { left. exists t, rest. repeat split; try assumption.
    rewrite (loop_body_closer s t rest P Hc) in I. cbn [result] in I.
    unfold close_bracket in I. rewrite (closer_value _ Hc) in I.
    destruct (Z.eqb_spec (tok.value (opener_of (getKind t)) + 1)
                         (tos (stack s) + 1)) as [Q|Q].
    - cbn [negb] in I. destruct (template_pop _ _); contradiction.
    - lia. }
  destruct (tok.eqb (getKind t) tok.hash) eqn:Hh.
  2:{ apply tok_eqb_neq in Hh.
      rewrite (loop_body_other s t rest P Ho Hc Hh) in I. contradiction. }
  apply tok_eqb_eq in Hh. right.
  rewrite (loop_body_hash s t rest P Hh) in I. cbn [result] in I.
  unfold directive in I.
  destruct rest as [|d rest]; cbn [Lex fst tokenText eof_token] in I.
  { simpl in I. contradiction. }
  exists t, d, rest.
  destruct (startswith "if" (tokenText d)); [contradiction|].
  destruct (is_endif (tokenText d)); [|contradiction].
  repeat split; try assumption.
  destruct (stack s) as [|z stk]; [left; reflexivity|right].
  cbn [empty back hd orb] in *.
  destruct (Z.eqb_spec z (tok.value tok.hash)); [contradiction|assumption].
Qed.

Lemma invalid_origin_witness :
  let toks := [Fragments.l_paren; mkToken tok.r_square "]"] in
  result (scan toks (mkToken tok.unknown "") fresh) = invalid /\
  exists s : loop_state,
    visits (loop_entry toks (mkToken tok.unknown "") fresh) s /\
    scan toks (mkToken tok.unknown "") fresh = loop_body s.
Proof.
  split; [vm_compute; reflexivity|].
  destruct (invalid_origin [Fragments.l_paren; mkToken tok.r_square "]"]
              (mkToken tok.unknown "") fresh) as (s & V & E & _).
  - vm_compute. reflexivity.
  - exists s. split; assumption.
Defined.

(* ===================================================================== *)
(** ** Balanced fragments                                                 *)
(* ===================================================================== *)

(** The scan of a balanced fragment, from a stack of markers. *)
Lemma scan_of_balanced
    (toks : list Token) (uninit : Token) (v : input_validator) :
  balanced toks -> wf_stack (parenStack v) ->
  scan toks uninit v =
  mkLoop [] eof_token (last toks uninit) complete (parenStack v).
Proof.
  intros B W.
  destruct (scan_balanced toks B (loop_entry toks uninit v) [])
    as (s & V & P & S & R & T);
    [symmetry; apply app_nil_r | discriminate | exact W |].
  unfold scan. rewrite (scan_to_end _ s V P), S, R, T. reflexivity.
Qed.





(* ===================================================================== *)
(** ** A fragment without tokens                                          *)
(* ===================================================================== *)

(** X9.  A fragment without any token (an empty line, white space) leaves
    the stack as it is.  Its verdict is [incomplete] when the stack is
    not empty, and also when the local [token], which the loop copies
    into [lastSeenToken] before it is ever assigned, holds a comma; it
    is [complete] otherwise.  The text of the fragment is appended all
    the same. *)
Theorem validate_no_token
    (code : string) (uninit : Token) (v : input_validator) :
  validate code [] uninit v =
  let res := if tok.eqb (getKind uninit) tok.comma
                || negb (empty (parenStack v))
             then incomplete else complete in
  (res, mkValidator (accumulate (input v) code) (parenStack v) res).
Proof.
  unfold validate, scan. rewrite do_while_at_end by reflexivity.
  unfold verdict, should_continue.
  cbn [loop_entry lastSeenToken token stack result ValidationResult_eqb negb].
  rewrite andb_true_r. reflexivity.
Qed.

(* ===================================================================== *)
(** ** [reset] moves the text out                                         *)
(* ===================================================================== *)

(** X10.  [reset] with a pointer to an empty string hands back the text
    collected and keeps none of it: a second [reset] hands back the
    empty text.  With a pointer to a string that is not empty it stops
    on its assertion, whatever the validator holds. *)
Theorem reset_moves_text (v : input_validator) :
  (exists v',
      reset (Some "") v = Some (Some (input v), v') /\
      reset (Some "") v' = Some (Some "", v') /\
      reset None v' = Some (None, v')) /\
  (forall s : string, s <> "" -> reset (Some s) v = None).
Proof.
  split.
  - exists fresh. repeat split; reflexivity.
  - intros s N. unfold reset. destruct s; [contradiction|reflexivity].
Qed.

Lemma reset_moves_text_witness :
  reset (Some "x;") fresh = None /\
  reset (Some "") (snd (validate "x;" Fragments.x_semi
                                 (mkToken tok.unknown "") fresh))
  = Some (Some "x;", fresh).
Proof.
  split.
  - apply (proj2 (reset_moves_text fresh) "x;"). discriminate.
  - reflexivity.
Defined.

(* ===================================================================== *)
(** ** A fragment passed in two calls                                     *)
(* ===================================================================== *)

(** A turn does not read [lastSeenToken], and reads [token] only to
    copy it into [lastSeenToken]. *)
Lemma loop_body_same_but_seen (a b : loop_state) :
  same_but_seen a b -> loop_body a = loop_body b.
Proof.
  destruct a as [pa ta la ra sa], b as [pb tb lb rb sb].
  intros (P & T & R & S). simpl in P, T, R, S. subst. reflexivity.
Qed.

Lemma loop_body_same_scan (a b : loop_state) :
  same_scan a b -> same_but_seen (loop_body a) (loop_body b).
Proof.
  destruct a as [pa ta la ra sa], b as [pb tb lb rb sb].
  intros (P & R & S). simpl in P, R, S. subst.
  unfold same_but_seen, loop_body. cbn [pp token result stack].
  destruct (Lex pb) as [tk pp1].
  destruct (getKind tk);
    try (repeat split; reflexivity);
    try (destruct (close_bracket _ _ _); repeat split; reflexivity).
  destruct (Lex pp1) as [tk2 pp2]. destruct (directive _ _ _).
  repeat split; reflexivity.
Qed.

Lemma loop_cond_same_but_seen (a b : loop_state) :
  same_but_seen a b -> loop_cond a = loop_cond b.
Proof.
  intros (_ & T & R & _). unfold loop_cond. rewrite T, R. reflexivity.
Qed.

(** The loop entered in two such states ends in two states that differ
    at most in [lastSeenToken], and in the same state when it makes more
    than one turn. *)
Lemma do_while_same_scan (a b : loop_state) :
  same_scan a b ->
  same_but_seen (do_while a) (do_while b) /\
  (loop_cond (loop_body b) = true -> do_while a = do_while b).
Proof.
  intros H. pose proof (loop_body_same_scan a b H) as B.
  pose proof (loop_cond_same_but_seen _ _ B) as C.
  rewrite (do_while_eq a), (do_while_eq b), C.
  destruct (loop_cond (loop_body b)).
  - assert (E : do_while (loop_body a) = do_while (loop_body b)).
    { rewrite (do_while_eq (loop_body a)), (do_while_eq (loop_body b)).
      rewrite (loop_body_same_but_seen _ _ B). reflexivity. }
    rewrite E. split; [|reflexivity].
    repeat split; reflexivity.
  - split; [assumption | discriminate].
Qed.

(** The part of a turn that depends on a token other than [#]. *)
Lemma loop_body_frame (s1 s : loop_state) (t : Token) (r rest : list Token) :
  pp s1 = t :: r -> pp s = t :: r ++ rest ->
  token s1 = token s -> result s1 = result s -> stack s1 = stack s ->
  (getKind t <> tok.hash \/ r <> []) ->
  token (loop_body s1) = token (loop_body s) /\
  lastSeenToken (loop_body s1) = lastSeenToken (loop_body s) /\
  result (loop_body s1) = result (loop_body s) /\
  stack (loop_body s1) = stack (loop_body s) /\
  ((getKind t <> tok.hash /\
    pp (loop_body s1) = r /\ pp (loop_body s) = r ++ rest) \/
   (getKind t = tok.hash /\
    exists d r', r = d :: r' /\ token (loop_body s) = d /\
                 pp (loop_body s1) = r' /\ pp (loop_body s) = r' ++ rest)).
Proof.
  intros P1 P T R S H.
  rewrite !loop_body_lastSeen.
  destruct (tok.eqb (getKind t) tok.hash) eqn:Hh.
  - apply tok_eqb_eq in Hh.
    destruct H as [H|H]; [contradiction|].
    destruct r as [|d r']; [contradiction|].
    rewrite (loop_body_hash s1 t _ P1 Hh), (loop_body_hash s t _ P Hh).
    cbn [app Lex fst snd token result stack pp]. rewrite R, S.
    repeat split; try assumption.
    right. split; [assumption|]. exists d, r'. repeat split.
  - apply tok_eqb_neq in Hh.
    destruct (opener (getKind t)) eqn:Ho.
    { rewrite (loop_body_opener s1 t _ P1 Ho), (loop_body_opener s t _ P Ho).
      cbn [token result stack pp]. rewrite R, S.
      repeat split; try assumption. left. repeat split. assumption. }
    destruct (closer (getKind t)) eqn:Hc.
    { rewrite (loop_body_closer s1 t _ P1 Hc), (loop_body_closer s t _ P Hc).
      cbn [token result stack pp]. rewrite R, S.
      repeat split; try assumption. left. repeat split. assumption. }
    rewrite (loop_body_other s1 t _ P1 Ho Hc Hh),
            (loop_body_other s t _ P Ho Hc Hh).
    cbn [token result stack pp].
    repeat split; try assumption. left. repeat split. assumption.
Qed.

Lemma cut_after_hash_tail (t : Token) (r : list Token) :
  cut_after_hash (t :: r) = false ->
  (getKind t <> tok.hash /\ cut_after_hash r = false) \/
  (getKind t = tok.hash /\
   exists d r', r = d :: r' /\ cut_after_hash r' = false).
Proof.
  cbn [cut_after_hash].
  destruct (tok.eqb (getKind t) tok.hash) eqn:Hh.
  - apply tok_eqb_eq in Hh. destruct r as [|d r']; [discriminate|].
    intros C. right. split; [assumption|]. exists d, r'. split; auto.
  - apply tok_eqb_neq in Hh. intros C. left. split; assumption.
Qed.

(** The scan of [t1 ++ rest] goes through the tokens [t1] as the scan
    of [t1] alone does, when that one lexes every token of [t1] in a
    turn of its own (or as the word after a [#]) and refuses none. *)
Lemma scan_prefix (n : nat) :
  forall (t1 rest : list Token) (s1 s : loop_state),
    (List.length t1 <= n)%nat ->
    pp s1 = t1 -> pp s = t1 ++ rest ->
    token s1 = token s -> result s1 = result s -> stack s1 = stack s ->
    Forall (fun t => getKind t <> tok.eof) t1 ->
    cut_after_hash t1 = false ->
    result (do_while s1) <> invalid ->
    exists s', visits s s' /\ pp s' = rest /\
               stack s' = stack (do_while s1) /\
               result s' = result (do_while s1) /\
               token s' = lastSeenToken (do_while s1).
Proof.
  induction n as [n IH] using lt_wf_ind.
  intros t1 rest s1 s L P1 P T R S F C I.
  destruct t1 as [|t r].
  - exists s. rewrite (do_while_at_end s1 P1). cbn [stack result lastSeenToken].
    repeat split; auto using visits_entry.
  - cbn [app] in P.
    assert (H : getKind t <> tok.hash \/ r <> []).
    { destruct (cut_after_hash_tail t r C) as [(H & _) | (_ & d & r' & -> & _)];
        [left; assumption | right; discriminate]. }
    destruct (loop_body_frame s1 s t r rest P1 P T R S H)
      as (T' & _ & R' & S' & Shape).
    inversion F as [|t0 r0 Ft Fr]; subst t0 r0.
    (* the turn does not end the loop *)
    assert (K : getKind (token (loop_body s1)) <> tok.eof).
    { destruct Shape as [(Hh & Pp1 & _) | (Hh & d & r' & -> & Td & _)].
      - destruct (loop_body_lexes s1 t r P1) as [(_ & _ & E) | (Hh' & _)];
          [rewrite E; assumption | contradiction].
      - rewrite T', Td. inversion Fr; assumption. }
    rewrite (do_while_eq s1) in I |- *.
    destruct (loop_cond (loop_body s1)) eqn:C1.
    2:{ apply loop_cond_false in C1. destruct C1; contradiction. }
    assert (C2 : loop_cond (loop_body s) = true).
    { apply loop_cond_true. apply loop_cond_true in C1.
      rewrite <- T', <- R'. assumption. }
    destruct Shape as [(Hh & Pp1 & Pp) | (Hh & d & r' & -> & Td & Pp1 & Pp)].
    + destruct (cut_after_hash_tail t r C) as [(_ & Cr) | (Hh' & _)];
        [|contradiction].
      assert (Hn : (List.length r < n)%nat) by (simpl in L; lia).
      destruct (IH (List.length r) Hn r rest (loop_body s1) (loop_body s)
                   (le_n _) Pp1 Pp T' R' S' Fr Cr I)
        as (s' & V & Q).
      exists s'. split; [|exact Q].
      apply (visits_trans _ (loop_body s)); [apply visits_step|]; assumption.
    + destruct (cut_after_hash_tail t (d :: r') C)
        as [(Hh' & _) | (_ & d' & r'' & E & Cr)]; [contradiction|].
      injection E as <- <-.
      inversion Fr as [|d0 r0 Fd Fr']; subst d0 r0.
      assert (Hn : (List.length r' < n)%nat) by (simpl in L; lia).
      destruct (IH (List.length r') Hn r' rest (loop_body s1) (loop_body s)
                   (le_n _) Pp1 Pp T' R' S' Fr' Cr I)
        as (s' & V & Q).
      exists s'. split; [|exact Q].
      apply (visits_trans _ (loop_body s)); [apply visits_step|]; assumption.
Qed.

(** X11.  A fragment passed in two calls.  Let the scan of the tokens [t1]
    refuse none of them and let [t1] not end inside a directive (with a
    [#] whose word would be the next token).  Then validating [t1] and
    after it [t2] leaves the stack, and gives the scan the result, that
    validating [t1 ++ t2] in one call does; and when the loop of the
    second call makes more than one turn, the two ways also return the
    same verdict. *)
Theorem validate_in_two_calls
    (code1 code2 code : string) (t1 t2 : list Token) (uninit1 uninit2 : Token)
    (v : input_validator) :
  Forall (fun t => getKind t <> tok.eof) t1 ->
  cut_after_hash t1 = false ->
  result (scan t1 uninit1 v) <> invalid ->
  let v1 := snd (validate code1 t1 uninit1 v) in
  parenStack (snd (validate code2 t2 uninit2 v1))
  = parenStack (snd (validate code (t1 ++ t2) uninit1 v)) /\
  result (scan t2 uninit2 v1) = result (scan (t1 ++ t2) uninit1 v) /\
  (loop_cond (loop_body (loop_entry t2 uninit2 v1)) = true ->
   fst (validate code2 t2 uninit2 v1)
   = fst (validate code (t1 ++ t2) uninit1 v)).
Proof.
  intros F C I v1.
  destruct (scan_prefix (List.length t1) t1 t2 (loop_entry t1 uninit1 v)
              (loop_entry (t1 ++ t2) uninit1 v)
              (le_n _) eq_refl eq_refl eq_refl eq_refl eq_refl F C I)
    as (s' & V & P & S & R & _).
  fold (scan t1 uninit1 v) in S, R.
  assert (H : same_scan (loop_entry t2 uninit2 v1) s').
  { unfold same_scan. cbn [loop_entry pp result stack].
    repeat split.
    - symmetry. assumption.
    - rewrite R. destruct (scan_result t1 uninit1 v) as [E|E];
        [symmetry; assumption | contradiction].
    - symmetry. assumption. }
  destruct (do_while_same_scan _ _ H) as [(_ & _ & R2 & S2) E].
  assert (D : scan (t1 ++ t2) uninit1 v = do_while s')
    by (apply visits_do_while; assumption).
  cbn [validate fst snd parenStack]. rewrite D.
  unfold scan at 1 2 3.
  repeat split; try assumption.
  intros K.
  assert (K' : loop_cond (loop_body s') = true).
  { rewrite <- (loop_cond_same_but_seen _ _ (loop_body_same_scan _ _ H)).
    assumption. }
  rewrite (E K'). reflexivity.
Qed.

Lemma validate_in_two_calls_witness :
  let u := mkToken tok.unknown "" in
  let v1 := snd (validate "foo(1, 2," Fragments.call_open u fresh) in
  fst (validate "3)" Fragments.call_close u v1)
  = fst (validate "foo(1, 2,3)" (Fragments.call_open ++ Fragments.call_close)
                  u fresh) /\
  fst (validate "3)" Fragments.call_close u v1) = complete.
Proof.
  split; [|vm_compute; reflexivity].
  apply (validate_in_two_calls "foo(1, 2," "3)" "foo(1, 2,3)"
           Fragments.call_open Fragments.call_close
           (mkToken tok.unknown "") (mkToken tok.unknown "") fresh).
  - repeat constructor; discriminate.
  - reflexivity.
  - vm_compute. discriminate.
  - vm_compute. reflexivity.
Defined.
